(** * Strangerthings: the multiplayer synchronisation server

    A shallow embedding of [src/server/GameServer.js] (the classes
    [GameServer], [Room] and [Player]) and the properties of the
    room/player life cycle, the character arbiter, the world-state
    partition and the tick broadcast.

    Modelling conventions.
    - A JavaScript [Map] is an insertion-ordered association list
      ([JSMap]): iteration order is observable through [releaseCharacter]
      and through the order of emitted messages.
    - [Player] objects are shared between [GameServer.players] and
      [Room.players]; they live in a store ([heap]) and both maps hold
      references into it.
    - Numbers are the finite values a JSON payload carries, as exact
      rationals ([Q]); rounding of binary64 arithmetic is not modelled.
    - [Date.now()] time stamps and [console.log] output are left out, with
      the exception of the reconnection notice of [handlePlayerJoin].
    - The two draws of [Math.random()] in [getSpawnPosition] are inputs of
      the join message.
    - The socket.io server is modelled by the membership relation of its
      rooms: a connecting socket is a member of the room named by its own
      id, [socket.join] adds a pair, and a disconnecting socket has left
      its rooms before the [disconnect] handler runs.
    - An uncaught exception of a handler is the output [Throw]. *)

From Stdlib Require Import List String Ascii Bool Arith Lia QArith Qabs Qminmax Lqa.
Import ListNotations.
Local Open Scope string_scope.
Local Open Scope list_scope.

Set Implicit Arguments.

(** JavaScript truthiness of a string value. *)
Definition truthy (s : string) : bool := negb (s =? "").

(** Truthiness of a value that is a string, [null] or [undefined]. *)
Definition truthy_opt (o : option string) : bool :=
  match o with
  | Some s => truthy s
  | None => false
  end.

(** * Insertion-ordered maps with string keys *)

Module JSMap.
Section Defs.
Variable V : Type.

Definition t := list (string * V).

Definition empty : t := [].

Fixpoint get (k : string) (m : t) : option V :=
  match m with
  | [] => None
  | (k', v) :: m' => if k =? k' then Some v else get k m'
  end.

Definition has (k : string) (m : t) : bool :=
  match get k m with
  | Some _ => true
  | None => false
  end.

(** [Map.prototype.set]: an existing key keeps its place, a new key goes
    to the end. *)
Fixpoint set (k : string) (v : V) (m : t) : t :=
  match m with
  | [] => [(k, v)]
  | (k', v') :: m' =>
      if k =? k' then (k, v) :: m' else (k', v') :: set k v m'
  end.

Fixpoint delete (k : string) (m : t) : t :=
  match m with
  | [] => []
  | (k', v') :: m' =>
      if k =? k' then delete k m' else (k', v') :: delete k m'
  end.

Definition keys (m : t) : list string := map fst m.
Definition values (m : t) : list V := map snd m.
Definition size (m : t) : nat := List.length m.
End Defs.

Arguments empty {V}.
End JSMap.

(** * Player *)

Record Vec3 := mkVec3 { x : Q; y : Q; z : Q }.

Module Player.

Record t := mk {
  id : string;
  username : string;
  position : Vec3;
  rotation : Q;
  worldState : string;
  animation : string;
  characterId : option string;
  firebaseUid : option string;
  needsBroadcast : bool
}.

(** What [serialize] sends over the network. *)
Record Serialized := mkSerialized {
  s_id : string;
  s_username : string;
  s_position : Vec3;
  s_rotation : Q;
  s_worldState : string;
  s_animation : string;
  s_characterId : option string
}.

(** [new Player(id, username, position)]; [firebaseUid] is the property
    the join handler adds right after construction. *)
Definition create (id username : string) (position : Vec3) : t :=
  {| id := id; username := username;
     position := position; rotation := 0;
     worldState := "normal"; animation := "idle";
     characterId := None; firebaseUid := None;
     needsBroadcast := false |}.

Definition setCharacter (c : string) (p : t) : t :=
  {| id := id p; username := username p; position := position p;
     rotation := rotation p; worldState := worldState p;
     animation := animation p; characterId := Some c;
     firebaseUid := firebaseUid p; needsBroadcast := needsBroadcast p |}.

Definition setPosition (pos : Vec3) (p : t) : t :=
  {| id := id p; username := username p;
     position := {| x := x pos; y := y pos; z := z pos |};
     rotation := rotation p; worldState := worldState p;
     animation := animation p; characterId := characterId p;
     firebaseUid := firebaseUid p; needsBroadcast := needsBroadcast p |}.

Definition setRotation (rot : Q) (p : t) : t :=
  {| id := id p; username := username p; position := position p;
     rotation := rot; worldState := worldState p;
     animation := animation p; characterId := characterId p;
     firebaseUid := firebaseUid p; needsBroadcast := needsBroadcast p |}.

Definition setAnimation (a : string) (p : t) : t :=
  {| id := id p; username := username p; position := position p;
     rotation := rotation p; worldState := worldState p;
     animation := a; characterId := characterId p;
     firebaseUid := firebaseUid p; needsBroadcast := needsBroadcast p |}.

Definition setWorldState (w : string) (p : t) : t :=
  {| id := id p; username := username p; position := position p;
     rotation := rotation p; worldState := w;
     animation := animation p; characterId := characterId p;
     firebaseUid := firebaseUid p; needsBroadcast := needsBroadcast p |}.

Definition setFirebaseUid (u : option string) (p : t) : t :=
  {| id := id p; username := username p; position := position p;
     rotation := rotation p; worldState := worldState p;
     animation := animation p; characterId := characterId p;
     firebaseUid := u; needsBroadcast := needsBroadcast p |}.

Definition setNeedsBroadcast (b : bool) (p : t) : t :=
  {| id := id p; username := username p; position := position p;
     rotation := rotation p; worldState := worldState p;
     animation := animation p; characterId := characterId p;
     firebaseUid := firebaseUid p; needsBroadcast := b |}.

(** [a > b] on numbers. *)
Definition gt (a b : Q) : bool := negb (Qle_bool a b).

Definition hasPositionChanged (newPos : Vec3) (threshold : Q) (p : t) : bool :=
  let dx := Qabs (x (position p) - x newPos) in
  let dy := Qabs (y (position p) - y newPos) in
  let dz := Qabs (z (position p) - z newPos) in
  gt dx threshold || gt dy threshold || gt dz threshold.

Definition hasRotationChanged (newRot : Q) (threshold : Q) (p : t) : bool :=
  gt (Qabs (rotation p - newRot)) threshold.

Definition serialize (p : t) : Serialized :=
  {| s_id := id p; s_username := username p;
     s_position := {| x := x (position p); y := y (position p);
                      z := z (position p) |};
     s_rotation := rotation p; s_worldState := worldState p;
     s_animation := animation p; s_characterId := characterId p |}.

End Player.

(** * The store of Player objects *)

(** A reference is an index into the store. *)
Abbreviation ref := nat.
Abbreviation Heap := (list Player.t).

Definition deref (h : Heap) (r : ref) : option Player.t := nth_error h r.

Fixpoint modify (r : ref) (f : Player.t -> Player.t) (h : Heap) : Heap :=
  match h, r with
  | [], _ => []
  | p :: h', O => f p :: h'
  | p :: h', S r' => p :: modify r' f h'
  end.

(** Allocation of a new object: its reference is the old size of the
    store. *)
Definition alloc (p : Player.t) (h : Heap) : Heap * ref := (h ++ [p], List.length h).

(** * Room *)

Definition AVAILABLE_CHARACTERS : list string :=
  ["eleven"; "mike"; "dustin"; "lucas"; "will"; "max"].

(** [Array.prototype.includes] on strings. *)
Definition includes (c : string) (l : list string) : bool :=
  existsb (String.eqb c) l.

Module Room.

Record t := mk {
  id : string;
  maxPlayers : nat;
  players : JSMap.t ref;
  selectedCharacters : JSMap.t string
}.

(** [new Room(id, maxPlayers)] *)
Definition create (id : string) (maxPlayers : nat) : t :=
  {| id := id; maxPlayers := maxPlayers;
     players := JSMap.empty; selectedCharacters := JSMap.empty |}.

Definition setPlayers (ps : JSMap.t ref) (room : t) : t :=
  {| id := id room; maxPlayers := maxPlayers room;
     players := ps; selectedCharacters := selectedCharacters room |}.

Definition setSelectedCharacters (sel : JSMap.t string) (room : t) : t :=
  {| id := id room; maxPlayers := maxPlayers room;
     players := players room; selectedCharacters := sel |}.

Record CharacterState := mkCharacterState {
  cs_id : string;
  available : bool;
  takenBy : option string
}.

Definition getAvailableCharacters (room : t) : list string :=
  filter (fun charId => negb (JSMap.has charId (selectedCharacters room)))
         AVAILABLE_CHARACTERS.

(** [takenBy: this.selectedCharacters.get(charId) || null] *)
Definition getCharacterStates (room : t) : list CharacterState :=
  map (fun charId =>
         {| cs_id := charId;
            available := negb (JSMap.has charId (selectedCharacters room));
            takenBy :=
              match JSMap.get charId (selectedCharacters room) with
              | Some pId => if truthy pId then Some pId else None
              | None => None
              end |})
      AVAILABLE_CHARACTERS.

(** The loop shared by [releaseCharacter] and [getPlayerCharacter]: the
    first entry, in insertion order, whose value is the player. *)
Fixpoint holder (playerId : string) (entries : JSMap.t string)
  : option string :=
  match entries with
  | [] => None
  | (charId, pId) :: rest =>
      if pId =? playerId then Some charId else holder playerId rest
  end.

Definition getPlayerCharacter (playerId : string) (room : t) : option string :=
  holder playerId (selectedCharacters room).

Definition releaseCharacter (playerId : string) (room : t)
  : t * option string :=
  match holder playerId (selectedCharacters room) with
  | Some charId =>
      (setSelectedCharacters
         (JSMap.delete charId (selectedCharacters room)) room,
       Some charId)
  | None => (room, None)
  end.

Inductive SelectResult :=
| Success
| Failure (error : string).

Definition selectCharacter (playerId characterId : string) (room : t)
  : t * SelectResult :=
  if negb (includes characterId AVAILABLE_CHARACTERS) then
    (room, Failure "Invalid character")
  else if JSMap.has characterId (selectedCharacters room) then
    (room, Failure "Character already taken")
  else
    let room1 := fst (releaseCharacter playerId room) in
    (setSelectedCharacters
       (JSMap.set characterId playerId (selectedCharacters room1)) room1,
     Success).

Definition addPlayer (r : ref) (player : Player.t) (room : t) : t :=
  setPlayers (JSMap.set (Player.id player) r (players room)) room.

Definition removePlayer (playerId : string) (room : t) : t * option string :=
  let '(room1, releasedCharacter) := releaseCharacter playerId room in
  (setPlayers (JSMap.delete playerId (players room1)) room1,
   releasedCharacter).

Definition getPlayer (playerId : string) (room : t) : option ref :=
  JSMap.get playerId (players room).

(** The partition query.  The result is the array of the objects
    themselves, that is, of references into the store. *)
Definition getPlayersInWorldState (h : Heap) (worldState : string) (room : t)
  : list ref :=
  filter (fun r => match deref h r with
                   | Some p => Player.worldState p =? worldState
                   | None => false
                   end)
         (JSMap.values (players room)).

Definition getAllPlayers (room : t) : list ref := JSMap.values (players room).

Definition getPlayerCount (room : t) : nat := JSMap.size (players room).

Definition isFull (room : t) : bool :=
  Nat.leb (maxPlayers room) (JSMap.size (players room)).

(** What [serialize] hands to a client. *)
Record Serialized := mkSerialized {
  rs_id : string;
  playerCount : nat;
  rs_maxPlayers : nat
}.

Definition serialize (room : t) : Serialized :=
  {| rs_id := id room; playerCount := JSMap.size (players room);
     rs_maxPlayers := maxPlayers room |}.

End Room.

(** The objects behind an array of references. *)
Definition objects (h : Heap) (rs : list ref) : list Player.t :=
  flat_map (fun r => match deref h r with Some p => [p] | None => [] end) rs.

(** * Messages *)

Record Update := mkUpdate {
  u_id : string;
  u_position : Vec3;
  u_rotation : Q;
  u_animation : string
}.

Inductive Event :=
| error (message : string)
| player_selectCharacterScreen (id : string) (uid : option string)
    (characters : list Room.CharacterState)
| character_selectFailed (err : string) (characters : list Room.CharacterState)
| character_selected (characterId : string)
    (characters : list Room.CharacterState)
| character_stateChanged (characters : list Room.CharacterState)
| player_joined (id : string) (uid : option string)
    (player : Player.Serialized) (players : list Player.Serialized)
| player_spawned (player : Player.Serialized)
| player_left (id : string)
| player_worldChanged (worldState : string) (players : list Player.Serialized)
| player_chat (id username message : string)
| players_update (players : list Update).

(** Where an [emit] goes: [socket.emit], [socket.to(room).emit] and
    [io.to(room).emit].  For socket.io every socket is a member of the
    room named by its own id, so [io.to(p.id)] is an instance of the
    last. *)
Inductive Target :=
| Socket (socketId : string)
| Except (socketId room : string)
| To (room : string).

Inductive Output :=
| Emit (target : Target) (ev : Event)
| LogReconnected (uid : string)
| Throw (exn : string).

(** * The socket.io room membership *)

Module IO.
Definition t := list (string * string).

Definition member (socketId room : string) (io : t) : bool :=
  existsb (fun '(s, r) => (s =? socketId) && (r =? room)) io.

Definition join (socketId room : string) (io : t) : t :=
  if member socketId room io then io else io ++ [(socketId, room)].

Definition leaveAll (socketId : string) (io : t) : t :=
  filter (fun '(s, _) => negb (s =? socketId)) io.

Definition membersOf (room : string) (io : t) : list string :=
  map fst (filter (fun '(_, r) => r =? room) io).

Definition recipients (io : t) (target : Target) : list string :=
  match target with
  | Socket s => [s]
  | Except s room => filter (fun s' => negb (s' =? s)) (membersOf room io)
  | To room => membersOf room io
  end.
End IO.

(** The deliveries of an output: who receives which event. *)
Definition deliveries (io : IO.t) (o : Output) : list (string * Event) :=
  match o with
  | Emit target ev => map (fun s => (s, ev)) (IO.recipients io target)
  | _ => []
  end.

(** * GameServer *)

Module CONFIG.
Definition MAX_PLAYERS_PER_ROOM : nat := 30.
Definition TICK_RATE : nat := 20.
Definition POSITION_THRESHOLD : Q := 1 # 100.
Definition ROTATION_THRESHOLD : Q := 1 # 100.
Definition minX : Q := -500.
Definition maxX : Q := 500.
Definition minZ : Q := -500.
Definition maxZ : Q := 500.
End CONFIG.

(** Payload of [player:join]; an absent field is [None]. *)
Record JoinData := mkJoinData {
  j_username : option string;
  j_uid : option string;
  j_roomId : option string
}.

(** Payload of [player:move]. *)
Record MoveData := mkMoveData {
  m_position : option Vec3;
  m_rotation : option Q;
  m_animation : option string
}.

Module GameServer.

Record t := mk {
  rooms : JSMap.t Room.t;
  players : JSMap.t ref;
  socketToRoom : JSMap.t string;
  uidToSocket : JSMap.t string;
  heap : Heap;
  io : IO.t
}.

Definition setRooms (v : JSMap.t Room.t) (s : t) : t :=
  {| rooms := v; players := players s; socketToRoom := socketToRoom s;
     uidToSocket := uidToSocket s; heap := heap s; io := io s |}.

Definition setPlayers (v : JSMap.t ref) (s : t) : t :=
  {| rooms := rooms s; players := v; socketToRoom := socketToRoom s;
     uidToSocket := uidToSocket s; heap := heap s; io := io s |}.

Definition setSocketToRoom (v : JSMap.t string) (s : t) : t :=
  {| rooms := rooms s; players := players s; socketToRoom := v;
     uidToSocket := uidToSocket s; heap := heap s; io := io s |}.

Definition setUidToSocket (v : JSMap.t string) (s : t) : t :=
  {| rooms := rooms s; players := players s; socketToRoom := socketToRoom s;
     uidToSocket := v; heap := heap s; io := io s |}.

Definition setHeap (v : Heap) (s : t) : t :=
  {| rooms := rooms s; players := players s; socketToRoom := socketToRoom s;
     uidToSocket := uidToSocket s; heap := v; io := io s |}.

Definition setIo (v : IO.t) (s : t) : t :=
  {| rooms := rooms s; players := players s; socketToRoom := socketToRoom s;
     uidToSocket := uidToSocket s; heap := heap s; io := v |}.

Definition createRoom (roomId : string) (s : t) : t :=
  setRooms
    (JSMap.set roomId (Room.create roomId CONFIG.MAX_PLAYERS_PER_ROOM)
               (rooms s)) s.

(** The state the constructor leaves behind. *)
Definition create : t :=
  createRoom "hawkins-1"
    {| rooms := JSMap.empty; players := JSMap.empty;
       socketToRoom := JSMap.empty; uidToSocket := JSMap.empty;
       heap := []; io := [] |}.

(** [this.players.get(socket.id)]: the object and its reference. *)
Definition getPlayer (s : t) (socketId : string) : option (ref * Player.t) :=
  match JSMap.get socketId (players s) with
  | Some r =>
      match deref (heap s) r with
      | Some p => Some (r, p)
      | None => None
      end
  | None => None
  end.

(** [this.socketToRoom.get(socket.id)], with the truthiness test of
    [!roomId] folded in. *)
Definition getRoomId (s : t) (socketId : string) : option string :=
  match JSMap.get socketId (socketToRoom s) with
  | Some roomId => if truthy roomId then Some roomId else None
  | None => None
  end.

(** [rnd_x] and [rnd_z] are the two results of [Math.random()]. *)
Definition getSpawnPosition (rnd_x rnd_z : Q) : Vec3 :=
  {| x := (rnd_x - (1 # 2)) * 20; y := 0; z := (rnd_z - (1 # 2)) * 20 |}.

Definition handleConnection (s : t) (socketId : string) : t * list Output :=
  (setIo (IO.join socketId socketId (io s)) s, []).

Definition handlePlayerJoin (s : t) (socketId : string) (data : JoinData)
           (rnd_x rnd_z : Q) : t * list Output :=
  let username :=
    match j_username data with Some u => u | None => "Player" end in
  let uid := j_uid data in
  let roomId :=
    match j_roomId data with Some r => r | None => "hawkins-1" end in
  match JSMap.get roomId (rooms s) with
  | None => (s, [Emit (Socket socketId) (error "Room not found")])
  | Some room =>
      if Room.isFull room then
        (s, [Emit (Socket socketId) (error "Room is full")])
      else
        let log :=
          match uid with
          | Some u =>
              if truthy u then
                match JSMap.get u (uidToSocket s) with
                | Some oldSocketId =>
                    if negb (oldSocketId =? socketId)
                    then [LogReconnected u] else []
                | None => []
                end
              else []
          | None => []
          end in
        let spawnPos := getSpawnPosition rnd_x rnd_z in
        let player :=
          Player.setFirebaseUid uid
            (Player.create socketId username spawnPos) in
        let '(h, r) := alloc player (heap s) in
        let uids :=
          match uid with
          | Some u =>
              if truthy u then JSMap.set u socketId (uidToSocket s)
              else uidToSocket s
          | None => uidToSocket s
          end in
        ({| rooms := rooms s;
            players := JSMap.set socketId r (players s);
            socketToRoom := JSMap.set socketId roomId (socketToRoom s);
            uidToSocket := uids;
            heap := h;
            io := IO.join socketId roomId (io s) |},
         log ++ [Emit (Socket socketId)
                   (player_selectCharacterScreen socketId uid
                      (Room.getCharacterStates room))])
  end.

Definition handleCharacterSelect (s : t) (socketId characterId : string)
  : t * list Output :=
  match getPlayer s socketId, getRoomId s socketId with
  | Some (r, player), Some roomId =>
      match JSMap.get roomId (rooms s) with
      | None => (s, [Emit (Socket socketId) (error "Room not found")])
      | Some room =>
          match Room.selectCharacter socketId characterId room with
          | (_, Room.Failure e) =>
              (s, [Emit (Socket socketId)
                     (character_selectFailed e
                        (Room.getCharacterStates room))])
          | (room', Room.Success) =>
              (setHeap (modify r (Player.setCharacter characterId) (heap s))
                 (setRooms (JSMap.set roomId room' (rooms s)) s),
               [Emit (Socket socketId)
                  (character_selected characterId
                     (Room.getCharacterStates room'));
                Emit (Except socketId roomId)
                  (character_stateChanged (Room.getCharacterStates room'))])
          end
      end
  | _, _ => (s, [Emit (Socket socketId) (error "Player not found")])
  end.

Definition handlePlayerReady (s : t) (socketId : string) : t * list Output :=
  match getPlayer s socketId, getRoomId s socketId with
  | Some (r, player), Some roomId =>
      match JSMap.get roomId (rooms s) with
      | None => (s, [Emit (Socket socketId) (error "Room not found")])
      | Some room =>
          if negb (truthy_opt (Player.characterId player)) then
            (s, [Emit (Socket socketId)
                   (error "Please select a character first")])
          else
            let room' := Room.addPlayer r player room in
            (setRooms (JSMap.set roomId room' (rooms s)) s,
             [Emit (Socket socketId)
                (player_joined socketId (Player.firebaseUid player)
                   (Player.serialize player)
                   (map Player.serialize
                      (filter (fun p => negb (Player.id p =? socketId))
                         (objects (heap s)
                            (Room.getPlayersInWorldState (heap s)
                               (Player.worldState player) room')))));
              Emit (Except socketId roomId)
                (player_spawned (Player.serialize player))])
      end
  | _, _ => (s, [Emit (Socket socketId) (error "Player not found")])
  end.

(** The clamp of the move handler; it updates the payload object, not
    the player. *)
Definition clamp (position : Vec3) : Vec3 :=
  {| x := Qmax CONFIG.minX (Qmin CONFIG.maxX (x position));
     y := y position;
     z := Qmax CONFIG.minZ (Qmin CONFIG.maxZ (z position)) |}.

Definition handlePlayerMove (s : t) (socketId : string) (data : MoveData)
  : t * list Output :=
  match getPlayer s socketId with
  | None => (s, [])
  | Some (r, player) =>
      let position := option_map clamp (m_position data) in
      let rotation := m_rotation data in
      let animation := m_animation data in
      let posChanged :=
        match position with
        | Some pos =>
            Player.hasPositionChanged pos CONFIG.POSITION_THRESHOLD player
        | None => false
        end in
      let rotChanged :=
        match rotation with
        | Some rot =>
            Player.hasRotationChanged rot CONFIG.ROTATION_THRESHOLD player
        | None => false
        end in
      let animChanged :=
        match animation with
        | Some a => truthy a && negb (Player.animation player =? a)
        | None => false
        end in
      if negb posChanged && negb rotChanged && negb animChanged then (s, [])
      else
        let p1 :=
          match position with
          | Some pos => Player.setPosition pos player
          | None => player
          end in
        let p2 :=
          match rotation with
          | Some rot => Player.setRotation rot p1
          | None => p1
          end in
        let p3 :=
          match animation with
          | Some a => if truthy a then Player.setAnimation a p2 else p2
          | None => p2
          end in
        (setHeap (modify r (fun _ => Player.setNeedsBroadcast true p3)
                    (heap s)) s,
         [])
  end.

Definition validWorldState (w : string) : bool :=
  (w =? "normal") || (w =? "upsideDown").

Definition handleWorldChange (s : t) (socketId newWorldState : string)
  : t * list Output :=
  match getPlayer s socketId, getRoomId s socketId with
  | Some (r, player), Some roomId =>
      let oldWorldState := Player.worldState player in
      if negb (validWorldState newWorldState) then (s, [])
      else if oldWorldState =? newWorldState then (s, [])
      else
        let h := modify r (Player.setWorldState newWorldState) (heap s) in
        let player' := Player.setWorldState newWorldState player in
        match JSMap.get roomId (rooms s) with
        | None => (setHeap h s, [Throw "TypeError"])
        | Some room =>
            let oldWorldPlayers :=
              filter (fun p => negb (Player.id p =? socketId))
                (objects h (Room.getPlayersInWorldState h oldWorldState room))
            in
            let newWorldPlayers :=
              filter (fun p => negb (Player.id p =? socketId))
                (objects h (Room.getPlayersInWorldState h newWorldState room))
            in
            (setHeap h s,
             map (fun p => Emit (To (Player.id p)) (player_left socketId))
                 oldWorldPlayers
             ++ map (fun p => Emit (To (Player.id p))
                                (player_spawned (Player.serialize player')))
                    newWorldPlayers
             ++ [Emit (Socket socketId)
                   (player_worldChanged newWorldState
                      (map Player.serialize newWorldPlayers))])
        end
  | _, _ => (s, [])
  end.

Definition handleAnimationChange (s : t) (socketId animation : string)
  : t * list Output :=
  match getPlayer s socketId with
  | None => (s, [])
  | Some (r, _) =>
      (setHeap
         (modify r (fun p => Player.setNeedsBroadcast true
                               (Player.setAnimation animation p))
                 (heap s)) s,
       [])
  end.

Definition handleChat (s : t) (socketId message : string)
  : t * list Output :=
  match getPlayer s socketId, getRoomId s socketId with
  | Some (r, player), Some roomId =>
      match JSMap.get roomId (rooms s) with
      | None => (s, [Throw "TypeError"])
      | Some room =>
          (s,
           map (fun p => Emit (To (Player.id p))
                           (player_chat socketId (Player.username player)
                              (substring 0 200 message)))
               (objects (heap s)
                  (Room.getPlayersInWorldState (heap s)
                     (Player.worldState player) room)))
      end
  | _, _ => (s, [])
  end.

Definition handleDisconnect (s : t) (socketId : string) : t * list Output :=
  let '(s1, out) :=
    match getPlayer s socketId, getRoomId s socketId with
    | Some (r, player), Some roomId =>
        let '(s0, out) :=
          match JSMap.get roomId (rooms s) with
          | Some room =>
              let '(room', releasedCharacter) :=
                Room.removePlayer socketId room in
              (setRooms (JSMap.set roomId room' (rooms s)) s,
               map (fun p => Emit (To (Player.id p)) (player_left socketId))
                   (objects (heap s)
                      (Room.getPlayersInWorldState (heap s)
                         (Player.worldState player) room'))
               ++ (if truthy_opt releasedCharacter then
                     [Emit (To roomId)
                        (character_stateChanged
                           (Room.getCharacterStates room'))]
                   else []))
          | None => (s, [])
          end in
        (match Player.firebaseUid player with
         | Some u =>
             if truthy u
             then setUidToSocket (JSMap.delete u (uidToSocket s0)) s0
             else s0
         | None => s0
         end, out)
    | _, _ => (s, [])
    end in
  (setSocketToRoom (JSMap.delete socketId (socketToRoom s1))
     (setPlayers (JSMap.delete socketId (players s1)) s1),
   out).

(** First loop of [broadcastUpdates]: collect the dirty players and
    clear their flags, in array order. *)
Fixpoint collectUpdates (h : Heap) (ps : list ref) : Heap * list Update :=
  match ps with
  | [] => (h, [])
  | r :: rest =>
      match deref h r with
      | Some player =>
          if Player.needsBroadcast player then
            let '(h', updates) :=
              collectUpdates
                (modify r (Player.setNeedsBroadcast false) h) rest in
            (h',
             {| u_id := Player.id player;
                u_position := Player.position player;
                u_rotation := Player.rotation player;
                u_animation := Player.animation player |} :: updates)
          else collectUpdates h rest
      | None => collectUpdates h rest
      end
  end.

(** Second loop: what one member of the group is sent. *)
Definition relevantUpdates (updates : list Update) (player : Player.t)
  : list Update :=
  filter (fun u => negb (u_id u =? Player.id player)) updates.

Definition sendUpdates (updates : list Update) (player : Player.t)
  : list Output :=
  match relevantUpdates updates player with
  | [] => []
  | (_ :: _) as relevant =>
      [Emit (To (Player.id player)) (players_update relevant)]
  end.

Definition broadcastUpdates (h : Heap) (ps : list ref) : Heap * list Output :=
  let '(h', updates) := collectUpdates h ps in
  (h',
   match updates with
   | [] => []
   | _ :: _ => flat_map (sendUpdates updates) (objects h' ps)
   end).

(** One room's share of a tick of the game loop. *)
Definition tickRoom (h : Heap) (room : Room.t) : Heap * list Output :=
  let normalPlayers := Room.getPlayersInWorldState h "normal" room in
  let upsideDownPlayers := Room.getPlayersInWorldState h "upsideDown" room in
  let '(h1, out1) := broadcastUpdates h normalPlayers in
  let '(h2, out2) := broadcastUpdates h1 upsideDownPlayers in
  (h2, out1 ++ out2).

(** The body of the [setInterval] callback of [startGameLoop]. *)
Definition tick (s : t) : t * list Output :=
  let '(h, out) :=
    fold_left (fun (acc : Heap * list Output) (entry : string * Room.t) =>
                 let '(h', out') := tickRoom (fst acc) (snd entry) in
                 (h', snd acc ++ out'))
              (rooms s) (heap s, []) in
  (setHeap h s, out).

End GameServer.

(** * The server as a transition system *)

Inductive Message :=
| player_join (data : JoinData) (rnd_x rnd_z : Q)
| player_selectCharacter (characterId : string)
| player_ready
| player_move (data : MoveData)
| player_worldChange (worldState : string)
| player_animation (animation : string)
| msg_player_chat (message : string)
| disconnect.

Inductive Input :=
| Connection (socketId : string)
| Receive (socketId : string) (m : Message)
| Tick.

Definition step (s : GameServer.t) (i : Input) : GameServer.t * list Output :=
  match i with
  | Connection sid => GameServer.handleConnection s sid
  | Receive sid (player_join data rx rz) =>
      GameServer.handlePlayerJoin s sid data rx rz
  | Receive sid (player_selectCharacter c) =>
      GameServer.handleCharacterSelect s sid c
  | Receive sid player_ready => GameServer.handlePlayerReady s sid
  | Receive sid (player_move data) => GameServer.handlePlayerMove s sid data
  | Receive sid (player_worldChange w) => GameServer.handleWorldChange s sid w
  | Receive sid (player_animation a) => GameServer.handleAnimationChange s sid a
  | Receive sid (msg_player_chat m) => GameServer.handleChat s sid m
  | Receive sid disconnect =>
      GameServer.handleDisconnect
        (GameServer.setIo (IO.leaveAll sid (GameServer.io s)) s) sid
  | Tick => GameServer.tick s
  end.

(** [Math.random()] returns a number in [[0, 1)]. *)
Definition random (r : Q) : Prop := 0 <= r /\ r < 1.

Definition wellFormed (i : Input) : Prop :=
  match i with
  | Receive _ (player_join _ rx rz) => random rx /\ random rz
  | _ => True
  end.

(** Run a list of inputs, collecting the outputs. *)
Fixpoint run (s : GameServer.t) (inputs : list Input)
  : GameServer.t * list Output :=
  match inputs with
  | [] => (s, [])
  | i :: rest =>
      let '(s1, out1) := step s i in
      let '(s2, out2) := run s1 rest in
      (s2, out1 ++ out2)
  end.

Inductive reachable : GameServer.t -> Prop :=
| reachable_create : reachable GameServer.create
| reachable_step s i :
    reachable s -> wellFormed i -> reachable (fst (step s i)).


(** * Predicates of the specification *)

(** A session id the gateway knows nothing about. *)
Definition unregistered (socketId : string) (s : GameServer.t) : Prop :=
  JSMap.get socketId (GameServer.players s) = None /\
  JSMap.get socketId (GameServer.socketToRoom s) = None.

(** The componentwise distance between the stored position and a
    candidate stays within [eps]. *)
Definition positionWithin (eps : Q) (player : Player.t) (pos : Vec3) : Prop :=
  Qabs (x (Player.position player) - x pos) <= eps /\
  Qabs (y (Player.position player) - y pos) <= eps /\
  Qabs (z (Player.position player) - z pos) <= eps.

(** Sample payloads and a sample run, used to instantiate the theorems. *)
Definition joinAs (uid : option string) : JoinData :=
  {| j_username := Some "Max"; j_uid := uid; j_roomId := Some "hawkins-1" |}.

Definition half : Q := 1 # 2.

(** Two sessions: B is ready and in the Upside Down, A has joined and
    picked a character but is not ready yet. *)
Definition lobby : GameServer.t :=
  fst (run GameServer.create
         [ Connection "A"; Connection "B";
           Receive "B" (player_join (joinAs None) half half);
           Receive "B" (player_selectCharacter "mike");
           Receive "B" player_ready;
           Receive "B" (player_worldChange "upsideDown");
           Receive "A" (player_join (joinAs None) half half);
           Receive "A" (player_selectCharacter "eleven") ]).

(** One session, registered under the identity token "u1". *)
Definition signedIn : GameServer.t :=
  fst (run GameServer.create
         [ Connection "A";
           Receive "A" (player_join (joinAs (Some "u1")) half half) ]).

(** The world state of the session registered under a socket id. *)
Definition worldStateOf (s : GameServer.t) (socketId : string) : option string :=
  option_map (fun rp => Player.worldState (snd rp))
             (GameServer.getPlayer s socketId).

(** Everything the outputs of a step deliver, resolved against the
    socket.io membership of the state the step ends in. *)
Definition delivered (s : GameServer.t) (out : list Output)
  : list (string * Event) :=
  flat_map (deliveries (GameServer.io s)) out.

(** ** The invariant of the reachable states *)

(** A position inside the rectangle of the world. *)
Definition bounded (p : Player.t) : Prop :=
  (CONFIG.minX <= x (Player.position p) /\ x (Player.position p) <= CONFIG.maxX)
  /\
  (CONFIG.minZ <= z (Player.position p) /\ z (Player.position p) <= CONFIG.maxZ).

(** The sessions that are ready in a room, and the sessions that hold a
    character of the room. *)
Definition readyIds (room : Room.t) : list string :=
  JSMap.keys (Room.players room).

Definition holders (room : Room.t) : list string :=
  JSMap.values (Room.selectedCharacters room).

Record roomInv (room : Room.t) : Prop := {
  ri_keys : NoDup (JSMap.keys (Room.selectedCharacters room));
  ri_holders : NoDup (holders room);
  ri_chars : incl (JSMap.keys (Room.selectedCharacters room))
                  AVAILABLE_CHARACTERS;
  ri_ready : NoDup (readyIds room);
  ri_ready_hold : incl (readyIds room) (holders room);
  ri_capacity : Room.maxPlayers room = CONFIG.MAX_PLAYERS_PER_ROOM
}.

Record Inv (s : GameServer.t) : Prop := {
  inv_rooms :
    forall roomId room, In (roomId, room) (GameServer.rooms s) -> roomInv room;
  inv_ids :
    forall socketId r,
      JSMap.get socketId (GameServer.players s) = Some r ->
      exists p, deref (GameServer.heap s) r = Some p /\ Player.id p = socketId;
  inv_ready_ids :
    forall roomId room playerId r,
      In (roomId, room) (GameServer.rooms s) ->
      In (playerId, r) (Room.players room) ->
      exists p, deref (GameServer.heap s) r = Some p /\ Player.id p = playerId;
  inv_character :
    forall socketId r p roomId room,
      GameServer.getPlayer s socketId = Some (r, p) ->
      truthy_opt (Player.characterId p) = true ->
      GameServer.getRoomId s socketId = Some roomId ->
      JSMap.get roomId (GameServer.rooms s) = Some room ->
      In socketId (holders room);
  inv_room_of :
    forall socketId roomId,
      GameServer.getRoomId s socketId = Some roomId ->
      exists room, JSMap.get roomId (GameServer.rooms s) = Some room;
  inv_bounded : Forall bounded (GameServer.heap s)
}.

(** Two stores of the same shape: the same objects, which kept their id and
    their character, and stayed inside the world if they were. *)
Definition sameShape (h h' : list Player.t) : Prop :=
  List.length h' = List.length h /\
  forall r p, deref h r = Some p ->
    exists p', deref h' r = Some p' /\
               Player.id p' = Player.id p /\
               Player.characterId p' = Player.characterId p /\
               (bounded p -> bounded p').



(** A move of A in [lobby] that stays below every threshold. *)
Definition jitter : MoveData :=
  {| m_position := Some {| x := 1 # 200; y := 0; z := 0 |};
     m_rotation := Some (1 # 100);
     m_animation := Some "idle" |}.

(** A room in which session A holds the character "eleven". *)
Definition roomWithEleven : Room.t :=
  fst (Room.selectCharacter "A" "eleven" (Room.create "hawkins-1" 30)).

(** The room of [lobby]. *)
Definition lobbyRoom : Room.t :=
  Room.mk "hawkins-1" 30 [("B", 0%nat)] [("mike", "B"); ("eleven", "A")].

(** ** World-state partitions *)

(** The sessions of a room that are in a world state: the result of the
    partition query on the state [s]. *)
Definition partition (s : GameServer.t) (room : Room.t) (worldState : string)
  : list Player.t :=
  objects (GameServer.heap s)
          (Room.getPlayersInWorldState (GameServer.heap s) worldState room).


(** [lobby] after A became ready as well: A is in the normal world, B in
    the Upside Down. *)
Definition bothReady : GameServer.t :=
  fst (run lobby [Receive "A" player_ready]).

(** ** Tick batches *)

(** The entry of a session in a delta batch. *)
Definition toUpdate (p : Player.t) : Update :=
  {| u_id := Player.id p; u_position := Player.position p;
     u_rotation := Player.rotation p; u_animation := Player.animation p |}.

(** What the collection does to a player object. *)
Definition clearDirty (p : Player.t) : Player.t :=
  if Player.needsBroadcast p then Player.setNeedsBroadcast false p else p.



(** A run of move messages of one session. *)
Definition moves (socketId : string) (ds : list MoveData) : list Input :=
  map (fun d => Receive socketId (player_move d)) ds.

(** Both sessions ready and in the normal world, right after a tick. *)
Definition calm : GameServer.t :=
  fst (run bothReady [Receive "B" (player_worldChange "normal"); Tick]).

Definition stride : MoveData :=
  {| m_position := Some {| x := 3; y := 0; z := 4 |};
     m_rotation := None; m_animation := Some "walk" |}.

(** A has moved since the last tick, B has not. *)
Definition sameWorld : GameServer.t := fst (run calm (moves "A" [stride])).

(** The room of [bothReady] and [sameWorld]. *)
Definition readyRoom : Room.t :=
  Room.mk "hawkins-1" 30 [("B", 0%nat); ("A", 1%nat)]
          [("mike", "B"); ("eleven", "A")].

(** ** Further predicates *)

(** A player object whose world state is one of the two the server
    knows. *)
Definition validWorld (p : Player.t) : Prop :=
  GameServer.validWorldState (Player.worldState p) = true.


(** The replies that report a refusal. *)
Definition isRefusal (ev : Event) : bool :=
  match ev with
  | error _ => true
  | character_selectFailed _ _ => true
  | _ => false
  end.

(** The character the player object of a session records agrees with the
    arbiter of the session's room. *)
Definition characterAgrees (s : GameServer.t) : Prop :=
  forall socketId r p roomId room c,
    GameServer.getPlayer s socketId = Some (r, p) ->
    Player.characterId p = Some c ->
    GameServer.getRoomId s socketId = Some roomId ->
    JSMap.get roomId (GameServer.rooms s) = Some room ->
    JSMap.get c (Room.selectedCharacters room) = Some socketId.

(** Whoever holds a character of a room is a registered session of that
    room. *)
Definition noLeak (s : GameServer.t) : Prop :=
  forall roomId room socketId,
    In (roomId, room) (GameServer.rooms s) ->
    In socketId (holders room) ->
    JSMap.get socketId (GameServer.players s) <> None /\
    GameServer.getRoomId s socketId = Some roomId.

(** * Facts about insertion-ordered maps *)

Section JSMapFacts.
Variable V : Type.
Implicit Types (m : JSMap.t V) (k : string) (v : V).

Lemma get_set_eq m k v : JSMap.get k (JSMap.set k v m) = Some v.
Proof.
  induction m as [|[k' v'] m IH]; simpl.
  - now rewrite String.eqb_refl.
  - destruct (k =? k') eqn:E; simpl; rewrite ?String.eqb_refl, ?E; auto.
Qed.

Lemma get_set_ne m k k' v :
  k <> k' -> JSMap.get k' (JSMap.set k v m) = JSMap.get k' m.
Proof.
  intros Hne. induction m as [|[k0 v0] m IH]; simpl.
  - destruct (k' =? k) eqn:E; auto.
    apply String.eqb_eq in E. congruence.
  - destruct (k =? k0) eqn:E; simpl.
    + apply String.eqb_eq in E. subst k0.
      destruct (k' =? k) eqn:E'; auto.
      apply String.eqb_eq in E'. congruence.
    + now rewrite IH.
Qed.

Lemma get_delete_eq m k : JSMap.get k (JSMap.delete k m) = None.
Proof.
  induction m as [|[k' v'] m IH]; simpl; auto.
  destruct (k =? k') eqn:E; simpl; rewrite ?E; auto.
Qed.

Lemma get_delete_ne m k k' :
  k <> k' -> JSMap.get k' (JSMap.delete k m) = JSMap.get k' m.
Proof.
  intros Hne. induction m as [|[k0 v0] m IH]; simpl; auto.
  destruct (k =? k0) eqn:E; simpl.
  - apply String.eqb_eq in E. subst k0.
    destruct (k' =? k) eqn:E'; auto.
    apply String.eqb_eq in E'. congruence.
  - now rewrite IH.
Qed.

Lemma delete_absent m k : JSMap.get k m = None -> JSMap.delete k m = m.
Proof.
  induction m as [|[k' v'] m IH]; simpl; auto.
  destruct (k =? k') eqn:E; [discriminate|].
  intros H. now rewrite IH.
Qed.

Lemma set_same m k v : JSMap.get k m = Some v -> JSMap.set k v m = m.
Proof.
  induction m as [|[k' v'] m IH]; simpl; [discriminate|].
  destruct (k =? k') eqn:E.
  - apply String.eqb_eq in E. subst k'. now intros [= ->].
  - intros H. now rewrite IH.
Qed.

Lemma get_In m k v : JSMap.get k m = Some v -> In (k, v) m.
Proof.
  induction m as [|[k' v'] m IH]; simpl; [discriminate|].
  destruct (k =? k') eqn:E.
  - apply String.eqb_eq in E. subst k'. intros [= ->]. now left.
  - auto.
Qed.

Lemma get_None_keys m k : JSMap.get k m = None <-> ~ In k (JSMap.keys m).
Proof.
  induction m as [|[k' v'] m IH]; simpl.
  - tauto.
  - destruct (k =? k') eqn:E.
    + apply String.eqb_eq in E. subst k'. split; [discriminate|tauto].
    + apply String.eqb_neq in E. rewrite IH. split; [|tauto].
      intros H [H1|H1]; [congruence|tauto].
Qed.

Lemma In_get m k v : NoDup (JSMap.keys m) -> In (k, v) m -> JSMap.get k m = Some v.
Proof.
  induction m as [|[k' v'] m IH]; simpl; [tauto|].
  intros Hnd [H|H].
  - injection H as -> ->. now rewrite String.eqb_refl.
  - inversion Hnd as [|? ? Hni Hnd']; subst.
    destruct (k =? k') eqn:E; auto.
    apply String.eqb_eq in E. subst k'.
    exfalso. apply Hni. change k with (fst (k, v)). now apply in_map.
Qed.

Lemma set_absent m k v :
  JSMap.get k m = None -> JSMap.set k v m = m ++ [(k, v)].
Proof.
  induction m as [|[k' v'] m IH]; simpl; auto.
  destruct (k =? k') eqn:E; [discriminate|].
  intros H. now rewrite IH.
Qed.

Lemma delete_filter m k :
  JSMap.delete k m = filter (fun e => negb (k =? fst e)) m.
Proof.
  induction m as [|[k' v'] m IH]; simpl; auto.
  destruct (k =? k'); simpl; now rewrite IH.
Qed.

Lemma In_delete m k k' v :
  In (k', v) (JSMap.delete k m) <-> k' <> k /\ In (k', v) m.
Proof.
  rewrite delete_filter, filter_In. simpl.
  rewrite negb_true_iff, String.eqb_neq. intuition congruence.
Qed.

Lemma NoDup_map_filter (B : Type) (proj : string * V -> B)
      (keep : string * V -> bool) m :
  NoDup (map proj m) -> NoDup (map proj (filter keep m)).
Proof.
  induction m as [|e m IH]; simpl; auto.
  intros Hnd. inversion Hnd as [|? ? Hni Hnd']; subst.
  destruct (keep e); simpl; auto.
  constructor; auto.
  intros Hin. apply Hni. apply in_map_iff in Hin as (b & <- & Hb).
  apply filter_In in Hb. apply in_map. tauto.
Qed.

Lemma NoDup_keys_delete m k :
  NoDup (JSMap.keys m) -> NoDup (JSMap.keys (JSMap.delete k m)).
Proof. rewrite delete_filter. apply NoDup_map_filter. Qed.

Lemma NoDup_values_delete m k :
  NoDup (JSMap.values m) -> NoDup (JSMap.values (JSMap.delete k m)).
Proof. rewrite delete_filter. apply NoDup_map_filter. Qed.

Lemma keys_set_present m k v v0 :
  JSMap.get k m = Some v0 -> JSMap.keys (JSMap.set k v m) = JSMap.keys m.
Proof.
  induction m as [|[k' v'] m IH]; simpl; [discriminate|].
  destruct (k =? k') eqn:E; simpl.
  - apply String.eqb_eq in E. now subst.
  - intros H. f_equal. now apply IH.
Qed.

Lemma NoDup_keys_set m k v :
  NoDup (JSMap.keys m) -> NoDup (JSMap.keys (JSMap.set k v m)).
Proof.
  intros Hnd. destruct (JSMap.get k m) as [v0|] eqn:E.
  - now rewrite keys_set_present with (v0 := v0) by exact E.
  - rewrite set_absent by exact E. unfold JSMap.keys. rewrite map_app. simpl.
    apply NoDup_app; auto.
    + repeat constructor. simpl. tauto.
    + intros a Ha [<-|[]]. now apply get_None_keys in E.
Qed.

Lemma In_keys_set m k v k' :
  In k' (JSMap.keys (JSMap.set k v m)) <-> k' = k \/ In k' (JSMap.keys m).
Proof.
  destruct (JSMap.get k m) as [v0|] eqn:E.
  - rewrite keys_set_present with (v0 := v0) by exact E. split; auto.
    intros [->|H]; auto.
    apply get_In in E. change k with (fst (k, v0)). now apply in_map.
  - rewrite set_absent by exact E. unfold JSMap.keys.
    rewrite map_app, in_app_iff. simpl. intuition.
Qed.

Lemma size_keys m : JSMap.size m = List.length (JSMap.keys m).
Proof. unfold JSMap.size, JSMap.keys. now rewrite length_map. Qed.

Lemma size_values m : JSMap.size m = List.length (JSMap.values m).
Proof. unfold JSMap.size, JSMap.values. now rewrite length_map. Qed.

End JSMapFacts.

(** * Disconnecting twice *)

(** Case analysis on an innermost scrutinee of the goal. *)
Ltac has_match scrut :=
  match scrut with
  | context [match _ with _ => _ end] => idtac
  end.

Ltac break_match :=
  match goal with
  | |- context [match ?scrut with _ => _ end] =>
      tryif has_match scrut then fail else destruct scrut eqn:?
  end.

Lemma handleDisconnect_unregisters s socketId :
  unregistered socketId (fst (GameServer.handleDisconnect s socketId)).
Proof.
  unfold GameServer.handleDisconnect.
  repeat break_match; simpl; split; apply get_delete_eq.
Qed.

Lemma handleDisconnect_io s socketId :
  GameServer.io (fst (GameServer.handleDisconnect s socketId)) = GameServer.io s.
Proof.
  unfold GameServer.handleDisconnect.
  repeat (break_match; simpl); reflexivity.
Qed.

Lemma handleDisconnect_of_unregistered s socketId :
  unregistered socketId s -> GameServer.handleDisconnect s socketId = (s, []).
Proof.
  intros [Hp Hr]. unfold GameServer.handleDisconnect, GameServer.getPlayer.
  rewrite Hp. simpl.
  rewrite (delete_absent _ _ Hp), (delete_absent _ _ Hr).
  now destruct s.
Qed.

Lemma leaveAll_idempotent socketId io :
  IO.leaveAll socketId (IO.leaveAll socketId io) = IO.leaveAll socketId io.
Proof.
  unfold IO.leaveAll. induction io as [|[a b] io IH]; simpl; auto.
  destruct (a =? socketId) eqn:E; simpl; rewrite ?E; simpl; now rewrite IH.
Qed.

(** C9.  Idempotent disconnect: for every state and every session id, a
    second run of the disconnect handler right after the first one returns
    the state unchanged and emits nothing: no second [player:left], no
    second [character:stateChanged], no exception.  The same holds for the
    whole disconnect path, in which the socket leaves its socket.io rooms
    before the handler runs. *)
Theorem disconnect_twice_is_noop (s : GameServer.t) (socketId : string) :
  (let s1 := fst (GameServer.handleDisconnect s socketId) in
   GameServer.handleDisconnect s1 socketId = (s1, []))
  /\
  (let s1 := fst (step s (Receive socketId disconnect)) in
   step s1 (Receive socketId disconnect) = (s1, [])).
Proof.
  split; cbv zeta.
  - apply handleDisconnect_of_unregistered, handleDisconnect_unregisters.
  - simpl.
    set (s0 := GameServer.setIo _ s).
    assert (Hio : IO.leaveAll socketId
                    (GameServer.io (fst (GameServer.handleDisconnect s0 socketId)))
                  = GameServer.io (fst (GameServer.handleDisconnect s0 socketId))).
    { rewrite handleDisconnect_io. subst s0. simpl. apply leaveAll_idempotent. }
    pose proof (handleDisconnect_unregisters s0 socketId) as Hu.
    destruct (fst (GameServer.handleDisconnect s0 socketId)) as [a b c d e f].
    simpl in Hio. unfold GameServer.setIo. simpl. rewrite Hio.
    now apply handleDisconnect_of_unregistered.
Qed.

(** * Threshold suppression *)

Lemma gt_false_iff a b : Player.gt a b = false <-> a <= b.
Proof.
  unfold Player.gt. rewrite negb_false_iff. apply Qle_bool_iff.
Qed.

Lemma hasPositionChanged_false eps player pos :
  positionWithin eps player pos ->
  Player.hasPositionChanged pos eps player = false.
Proof.
  intros (Hx & Hy & Hz). unfold Player.hasPositionChanged.
  apply gt_false_iff in Hx, Hy, Hz. now rewrite Hx, Hy, Hz.
Qed.

(** C7.  Threshold suppression: for a registered session, a move message
    whose clamped position (when a position is sent) is within the
    position threshold of the stored one in every component, whose yaw
    (when sent) is within the rotation threshold of the stored one, and
    whose animation tag (when sent) is the stored one, returns the whole
    server state unchanged, so the position, rotation, animation and dirty
    flag of the session are exactly as they were, and it emits nothing. *)
Theorem move_below_threshold_is_noop
        (s : GameServer.t) (socketId : string) (r : ref) (player : Player.t)
        (data : MoveData) :
  GameServer.getPlayer s socketId = Some (r, player) ->
  (forall pos, m_position data = Some pos ->
     positionWithin CONFIG.POSITION_THRESHOLD player (GameServer.clamp pos)) ->
  (forall rot, m_rotation data = Some rot ->
     Qabs (Player.rotation player - rot) <= CONFIG.ROTATION_THRESHOLD) ->
  (forall a, m_animation data = Some a -> Player.animation player = a) ->
  GameServer.handlePlayerMove s socketId data = (s, []) /\
  GameServer.getPlayer (fst (GameServer.handlePlayerMove s socketId data)) socketId
  = Some (r, player).
Proof.
  intros Hp Hpos Hrot Hanim.
  assert (E : GameServer.handlePlayerMove s socketId data = (s, [])).
  { unfold GameServer.handlePlayerMove. rewrite Hp.
    destruct data as [[pos|] [rot|] [a|]];
      cbn [m_position m_rotation m_animation option_map] in *;
      rewrite ?(hasPositionChanged_false (Hpos _ eq_refl));
      unfold Player.hasRotationChanged;
      rewrite ?(proj2 (gt_false_iff _ _) (Hrot _ eq_refl));
      rewrite ?(Hanim _ eq_refl), ?String.eqb_refl, ?andb_false_r;
      reflexivity. }
  rewrite E. auto.
Qed.

Lemma move_below_threshold_witness :
  GameServer.handlePlayerMove lobby "A" jitter = (lobby, []) /\
  option_map snd
    (GameServer.getPlayer
       (fst (GameServer.handlePlayerMove lobby "A" jitter)) "A")
  = option_map snd (GameServer.getPlayer lobby "A").
Proof.
  destruct (GameServer.getPlayer lobby "A") as [[r player]|] eqn:E;
    [|discriminate E].
  destruct (@move_below_threshold_is_noop lobby "A" r player jitter E)
    as [H1 H2].
  - intros pos [= <-]. injection E as <- <-.
    repeat split; apply Qle_bool_iff; reflexivity.
  - intros rot [= <-]. injection E as <- <-.
    apply Qle_bool_iff. reflexivity.
  - intros a [= <-]. injection E as <- <-. reflexivity.
  - split; [exact H1|]. now rewrite H2.
Defined.

(** * Character selection *)

Lemma includes_In c l : includes c l = true <-> In c l.
Proof.
  unfold includes. rewrite existsb_exists. split.
  - intros (c' & Hin & E). apply String.eqb_eq in E. now subst.
  - intros Hin. exists c. split; auto. apply String.eqb_refl.
Qed.

Lemma has_true_iff (V : Type) (m : JSMap.t V) k :
  JSMap.has k m = true <-> exists v, JSMap.get k m = Some v.
Proof.
  unfold JSMap.has. destruct (JSMap.get k m).
  - split; eauto.
  - split; [discriminate|]. intros [v Hv]. discriminate.
Qed.

(** C4, the claim as written fails: a session that holds a character and
    selects it again is refused with "Character already taken", and so the
    refusal does not need another session as the holder. *)
Lemma reselect_own_character_fails :
  let room := fst (Room.selectCharacter "A" "eleven"
                     (Room.create "hawkins-1" 30)) in
  JSMap.get "eleven" (Room.selectedCharacters room) = Some "A" /\
  Room.selectCharacter "A" "eleven" room
  = (room, Room.Failure "Character already taken") /\
  ~ (forall room playerId characterId,
        JSMap.get characterId (Room.selectedCharacters room) = Some playerId ->
        snd (Room.selectCharacter playerId characterId room) = Room.Success).
Proof.
  cbv zeta. split; [reflexivity|]. split; [reflexivity|].
  intros H.
  specialize (H (fst (Room.selectCharacter "A" "eleven"
                        (Room.create "hawkins-1" 30))) "A" "eleven" eq_refl).
  discriminate H.
Qed.

(** C4, amended.  [selectCharacter] fails with "Invalid character" exactly
    when the character is outside the fixed set of six; it fails with
    "Character already taken" exactly when the character is in the set and
    some session, the caller included, holds it; a session that selects
    the character it already holds is therefore refused; and every failure
    leaves the room as it was. *)
Theorem selectCharacter_failures
        (room : Room.t) (playerId characterId : string) :
  (snd (Room.selectCharacter playerId characterId room)
   = Room.Failure "Invalid character"
   <-> ~ In characterId AVAILABLE_CHARACTERS)
  /\
  (snd (Room.selectCharacter playerId characterId room)
   = Room.Failure "Character already taken"
   <-> In characterId AVAILABLE_CHARACTERS /\
       exists holder,
         JSMap.get characterId (Room.selectedCharacters room) = Some holder)
  /\
  (In characterId AVAILABLE_CHARACTERS ->
   JSMap.get characterId (Room.selectedCharacters room) = Some playerId ->
   Room.selectCharacter playerId characterId room
   = (room, Room.Failure "Character already taken"))
  /\
  (forall e,
     snd (Room.selectCharacter playerId characterId room) = Room.Failure e ->
     fst (Room.selectCharacter playerId characterId room) = room).
Proof.
  unfold Room.selectCharacter.
  destruct (includes characterId AVAILABLE_CHARACTERS) eqn:Hin;
    cbn [negb fst snd].
  - assert (Hi : In characterId AVAILABLE_CHARACTERS) by now apply includes_In.
    destruct (JSMap.has characterId (Room.selectedCharacters room)) eqn:Hhas;
      cbn [fst snd].
    + apply has_true_iff in Hhas.
      repeat split; auto; intros; try congruence; try tauto.
    + assert (Hno : ~ exists holder,
                 JSMap.get characterId (Room.selectedCharacters room)
                 = Some holder).
      { intros Hex. apply has_true_iff in Hex. congruence. }
      repeat split; intros; try congruence; try tauto.
      exfalso. apply Hno. eauto.
  - assert (Hi : ~ In characterId AVAILABLE_CHARACTERS).
    { intros Hi. apply includes_In in Hi. congruence. }
    repeat split; auto; intros; try congruence; tauto.
Qed.

Lemma selectCharacter_failures_witness :
  Room.selectCharacter "A" "eleven" roomWithEleven
  = (roomWithEleven, Room.Failure "Character already taken").
Proof.
  apply (selectCharacter_failures roomWithEleven "A" "eleven").
  - simpl. tauto.
  - reflexivity.
Defined.

(** * Reconnection by identity token *)

Lemma deref_alloc h r p q : deref h r = Some p -> deref (h ++ [q]) r = Some p.
Proof.
  unfold deref. intros H. rewrite nth_error_app1; auto.
  apply nth_error_Some. congruence.
Qed.

Lemma handleDisconnect_uidToSocket s socketId r player uid roomId :
  GameServer.getPlayer s socketId = Some (r, player) ->
  GameServer.getRoomId s socketId = Some roomId ->
  Player.firebaseUid player = Some uid ->
  truthy uid = true ->
  GameServer.uidToSocket (fst (GameServer.handleDisconnect s socketId))
  = JSMap.delete uid (GameServer.uidToSocket s).
Proof.
  intros Hp Hr Hu Ht. unfold GameServer.handleDisconnect.
  rewrite Hp, Hr, Hu, Ht.
  destruct (JSMap.get roomId (GameServer.rooms s)) as [room|];
    [destruct (Room.removePlayer socketId room)|]; reflexivity.
Qed.

Lemma handleDisconnect_players s socketId :
  GameServer.players (fst (GameServer.handleDisconnect s socketId))
  = JSMap.delete socketId (GameServer.players s).
Proof.
  unfold GameServer.handleDisconnect.
  repeat (break_match; simpl); reflexivity.
Qed.

Lemma handleDisconnect_heap s socketId :
  GameServer.heap (fst (GameServer.handleDisconnect s socketId))
  = GameServer.heap s.
Proof.
  unfold GameServer.handleDisconnect.
  repeat (break_match; simpl); reflexivity.
Qed.

(** C10.  A second session joins with the identity token of a session
    that is still registered: the token now maps to the new session, and a
    further join with that token would be noticed as a reconnection.  When
    the older session disconnects, its handler deletes the entry of the
    token although it belongs to the newer session, which stays
    registered; from then on a join with that token is not noticed as a
    reconnection any more. *)
Theorem stale_disconnect_forgets_live_session
        (s : GameServer.t) (older newer uid roomId : string)
        (r : ref) (player : Player.t) (room : Room.t)
        (username : option string) (rnd_x rnd_z : Q) :
  older <> newer ->
  truthy uid = true ->
  GameServer.getPlayer s older = Some (r, player) ->
  GameServer.getRoomId s older <> None ->
  Player.firebaseUid player = Some uid ->
  JSMap.get roomId (GameServer.rooms s) = Some room ->
  Room.isFull room = false ->
  let data := {| j_username := username; j_uid := Some uid;
                 j_roomId := Some roomId |} in
  let s1 := fst (step s (Receive newer (player_join data rnd_x rnd_z))) in
  let s2 := fst (step s1 (Receive older disconnect)) in
  JSMap.get uid (GameServer.uidToSocket s1) = Some newer /\
  (forall third rx rz, third <> newer ->
     In (LogReconnected uid)
        (snd (step s1 (Receive third (player_join data rx rz))))) /\
  JSMap.get uid (GameServer.uidToSocket s2) = None /\
  (exists r' player',
     GameServer.getPlayer s2 newer = Some (r', player') /\
     Player.firebaseUid player' = Some uid) /\
  (forall third data' rx rz,
     ~ In (LogReconnected uid)
          (snd (step s2 (Receive third (player_join data' rx rz))))).
Proof.
  intros Hne Ht Hp Hr Hu Hroom Hfull data s1 s2.
  destruct (GameServer.getRoomId s older) as [oldRoom|] eqn:Hr'; [|congruence].
  assert (E1 : s1 =
    {| GameServer.rooms := GameServer.rooms s;
       GameServer.players :=
         JSMap.set newer (List.length (GameServer.heap s)) (GameServer.players s);
       GameServer.socketToRoom :=
         JSMap.set newer roomId (GameServer.socketToRoom s);
       GameServer.uidToSocket := JSMap.set uid newer (GameServer.uidToSocket s);
       GameServer.heap :=
         GameServer.heap s ++
           [Player.setFirebaseUid (Some uid)
              (Player.create newer
                 match username with Some u => u | None => "Player" end
                 (GameServer.getSpawnPosition rnd_x rnd_z))];
       GameServer.io := IO.join newer roomId (GameServer.io s) |}).
  { subst s1 data. simpl. unfold GameServer.handlePlayerJoin. simpl.
    rewrite Hroom, Hfull, Ht. reflexivity. }
  assert (Huid1 : JSMap.get uid (GameServer.uidToSocket s1) = Some newer).
  { rewrite E1. simpl. apply get_set_eq. }
  assert (Hrooms1 : GameServer.rooms s1 = GameServer.rooms s)
    by (rewrite E1; reflexivity).
  assert (Hp1 : GameServer.getPlayer s1 older = Some (r, player)).
  { unfold GameServer.getPlayer in *. rewrite E1.
    cbn [GameServer.players GameServer.heap].
    rewrite get_set_ne by congruence.
    destruct (JSMap.get older (GameServer.players s)) as [r0|]; [|discriminate].
    destruct (deref (GameServer.heap s) r0) as [p0|] eqn:D; [|discriminate].
    injection Hp as -> ->. now rewrite deref_alloc with (p := player). }
  assert (Hr1 : GameServer.getRoomId s1 older = Some oldRoom).
  { unfold GameServer.getRoomId in *. rewrite E1. simpl.
    now rewrite get_set_ne by congruence. }
  assert (Huid2 : JSMap.get uid (GameServer.uidToSocket s2) = None).
  { subst s2. simpl.
    erewrite handleDisconnect_uidToSocket; eauto. apply get_delete_eq. }
  split; [exact Huid1|]. split; [|split; [exact Huid2|split]].
  - intros third rx rz Hthird. subst data. simpl.
    unfold GameServer.handlePlayerJoin. simpl.
    rewrite Hrooms1, Hroom, Hfull, Ht, Huid1.
    assert (En : (newer =? third) = false) by (apply String.eqb_neq; congruence).
    rewrite En. simpl. now left.
  - subst s2. simpl. unfold GameServer.getPlayer.
    rewrite handleDisconnect_players, handleDisconnect_heap. simpl.
    rewrite get_delete_ne by congruence.
    rewrite E1. simpl. rewrite get_set_eq.
    unfold deref. rewrite nth_error_app2, Nat.sub_diag by lia. simpl.
    eauto.
  - intros third data' rx rz. simpl. unfold GameServer.handlePlayerJoin.
    destruct (JSMap.get _ (GameServer.rooms s2)) as [room2|];
      [destruct (Room.isFull room2)|]; simpl;
      try (intros [H|[]]; discriminate H).
    destruct (j_uid data') as [u|]; [destruct (truthy u)|];
      try (simpl; intros [H|[]]; discriminate H).
    destruct (JSMap.get u (GameServer.uidToSocket s2)) as [o|] eqn:Eo;
      [|simpl; intros [H|[]]; discriminate H].
    destruct (negb (o =? third)); simpl;
      [|intros [H|[]]; discriminate H].
    intros [H|[H|[]]]; [|discriminate H].
    injection H as ->. congruence.
Qed.

Lemma stale_disconnect_witness :
  JSMap.get "u1"
    (GameServer.uidToSocket
       (fst (step signedIn
               (Receive "B" (player_join (joinAs (Some "u1")) half half)))))
  = Some "B" /\
  JSMap.get "u1"
    (GameServer.uidToSocket
       (fst (step
               (fst (step signedIn
                       (Receive "B"
                          (player_join (joinAs (Some "u1")) half half))))
               (Receive "A" disconnect))))
  = None.
Proof.
  destruct (GameServer.getPlayer signedIn "A") as [[r player]|] eqn:Hp;
    [|discriminate Hp].
  destruct (JSMap.get "hawkins-1" (GameServer.rooms signedIn)) as [room|] eqn:Hr;
    [|discriminate Hr].
  assert (Hu : Player.firebaseUid player = Some "u1")
    by (injection Hp as <- <-; reflexivity).
  assert (Hf : Room.isFull room = false)
    by (injection Hr as <-; reflexivity).
  assert (Hreg : GameServer.getRoomId signedIn "A" <> None) by discriminate.
  assert (Hne : "A" <> "B") by discriminate.
  pose proof (@stale_disconnect_forgets_live_session
                signedIn "A" "B" "u1" "hawkins-1" r player room (Some "Max")
                half half Hne eq_refl Hp Hreg Hu Hr Hf) as (H1 & _ & H2 & _).
  split; [exact H1|exact H2].
Defined.

(** * Partition isolation *)

(** C1, evaluated on the code.  B is ready and in the Upside Down; A, in
    the normal world, becomes ready.  The [player:spawned] event of A's
    ready transition goes to the whole socket.io room with A left out, and
    so it is delivered to B although the two world states differ. *)
Theorem ready_spawned_crosses_partition :
  let s := fst (step lobby (Receive "A" player_ready)) in
  let out := snd (step lobby (Receive "A" player_ready)) in
  worldStateOf s "A" = Some "normal" /\
  worldStateOf s "B" = Some "upsideDown" /\
  In (Emit (Except "A" "hawkins-1")
        (player_spawned
           {| Player.s_id := "A"; Player.s_username := "Max";
              Player.s_position := {| x := (half - (1 # 2)) * 20; y := 0;
                                      z := (half - (1 # 2)) * 20 |};
              Player.s_rotation := 0; Player.s_worldState := "normal";
              Player.s_animation := "idle";
              Player.s_characterId := Some "eleven" |})) out /\
  exists spawned,
    In ("B", player_spawned spawned) (delivered s out) /\
    Player.s_id spawned = "A" /\
    Player.s_worldState spawned = "normal".
Proof.
  cbv zeta. split; [reflexivity|]. split; [reflexivity|]. split.
  - vm_compute. right. left. reflexivity.
  - eexists. split.
    + vm_compute. right. left. reflexivity.
    + split; reflexivity.
Qed.

(** * The store *)

Lemma deref_modify_eq h r f p :
  deref h r = Some p -> deref (modify r f h) r = Some (f p).
Proof.
  unfold deref. revert r. induction h as [|q h IH]; intros [|r]; simpl;
    try discriminate.
  - now intros [= ->].
  - apply IH.
Qed.

Lemma deref_modify_ne h r r' f :
  r <> r' -> deref (modify r f h) r' = deref h r'.
Proof.
  unfold deref. revert r r'.
  induction h as [|q h IH]; intros [|r] [|r'] Hne; simpl; auto;
    try congruence.
Qed.

Lemma length_modify h r f : List.length (modify r f h) = List.length h.
Proof.
  revert r. induction h as [|q h IH]; intros [|r]; simpl; auto.
Qed.

Lemma deref_Some_lt h r p : deref h r = Some p -> (r < List.length h)%nat.
Proof. unfold deref. intros H. apply nth_error_Some. congruence. Qed.

Lemma deref_lt_Some h r :
  (r < List.length h)%nat -> exists p, deref h r = Some p.
Proof.
  unfold deref. intros H. destruct (nth_error h r) eqn:E; eauto.
  apply nth_error_None in E. lia.
Qed.

Lemma Forall_deref (P : Player.t -> Prop) h :
  Forall P h <-> forall r p, deref h r = Some p -> P p.
Proof.
  unfold deref. rewrite Forall_forall. split.
  - intros H r p Hr. eapply H, nth_error_In, Hr.
  - intros H p Hin. apply In_nth_error in Hin as [r Hr]. eauto.
Qed.

Lemma sameShape_refl h : sameShape h h.
Proof. split; auto. intros r p H. exists p. tauto. Qed.

Lemma sameShape_trans h1 h2 h3 :
  sameShape h1 h2 -> sameShape h2 h3 -> sameShape h1 h3.
Proof.
  intros [L1 H1] [L2 H2]. split; [congruence|].
  intros r p Hp.
  destruct (H1 _ _ Hp) as (p2 & Hp2 & Hi2 & Hc2 & Hb2).
  destruct (H2 _ _ Hp2) as (p3 & Hp3 & Hi3 & Hc3 & Hb3).
  exists p3. split; [exact Hp3|]. split; [congruence|]. split; [congruence|].
  auto.
Qed.

Lemma sameShape_modify h r f :
  (forall p, deref h r = Some p ->
     Player.id (f p) = Player.id p /\
     Player.characterId (f p) = Player.characterId p /\
     (bounded p -> bounded (f p))) ->
  sameShape h (modify r f h).
Proof.
  intros Hf. split; [apply length_modify|].
  intros r' p Hp. destruct (Nat.eq_dec r r') as [->|Hne].
  - exists (f p). split; [now apply deref_modify_eq|]. auto.
  - exists p. rewrite deref_modify_ne by auto. tauto.
Qed.

(** * Preservation of the invariant *)

Lemma Inv_create : Inv GameServer.create.
Proof.
  constructor; simpl.
  - intros roomId room [[= <- <-]|[]].
    constructor; cbv; try (intros a []); constructor.
  - discriminate.
  - intros roomId room playerId r [[= <- <-]|[]] [].
  - discriminate.
  - discriminate.
  - constructor.
Qed.

Lemma Inv_setIo s io : Inv s -> Inv (GameServer.setIo io s).
Proof. intros [H1 H2 H3 H4 H5 H6]. constructor; assumption. Qed.

Lemma Inv_setHeap s h :
  Inv s -> sameShape (GameServer.heap s) h -> Inv (GameServer.setHeap h s).
Proof.
  intros [H1 H2 H3 H4 H5 H6] [Hlen Hsame]. constructor; simpl; auto.
  - intros socketId r Hr.
    destruct (H2 _ _ Hr) as (p & Hp & Hid).
    destruct (Hsame _ _ Hp) as (p' & Hp' & Hid' & _).
    exists p'. split; congruence.
  - intros roomId room playerId r Hroom Hr.
    destruct (H3 _ _ _ _ Hroom Hr) as (p & Hp & Hid).
    destruct (Hsame _ _ Hp) as (p' & Hp' & Hid' & _).
    exists p'. split; congruence.
  - intros socketId r p' roomId room Hp' Hc Hroom Hget.
    unfold GameServer.getPlayer in Hp'. simpl in Hp'.
    destruct (JSMap.get socketId (GameServer.players s)) as [r0|] eqn:Hr0;
      [|discriminate].
    destruct (H2 _ _ Hr0) as (p & Hp & Hid).
    destruct (Hsame _ _ Hp) as (p'' & Hp'' & _ & Hch & _).
    rewrite Hp'' in Hp'. injection Hp' as <- <-.
    apply (H4 socketId r0 p roomId room); auto.
    + unfold GameServer.getPlayer. now rewrite Hr0, Hp.
    + congruence.
  - apply Forall_deref. intros r p' Hp'.
    destruct (@deref_lt_Some (GameServer.heap s) r) as [p Hp].
    { rewrite <- Hlen. eapply deref_Some_lt, Hp'. }
    destruct (Hsame _ _ Hp) as (p'' & Hp'' & _ & _ & Hb).
    assert (p'' = p') by congruence. subst p''.
    apply Hb. eapply Forall_deref in H6; eauto.
Qed.

Lemma getPlayer_deref s socketId r p :
  GameServer.getPlayer s socketId = Some (r, p) ->
  JSMap.get socketId (GameServer.players s) = Some r /\
  deref (GameServer.heap s) r = Some p.
Proof.
  unfold GameServer.getPlayer.
  destruct (JSMap.get socketId (GameServer.players s)) as [r0|]; [|discriminate].
  destruct (deref (GameServer.heap s) r0) as [p0|] eqn:E; [|discriminate].
  intros [= <- <-]. auto.
Qed.

Lemma clamp_bounds pos :
  (CONFIG.minX <= x (GameServer.clamp pos) /\
   x (GameServer.clamp pos) <= CONFIG.maxX) /\
  (CONFIG.minZ <= z (GameServer.clamp pos) /\
   z (GameServer.clamp pos) <= CONFIG.maxZ).
Proof.
  unfold GameServer.clamp. simpl. repeat split.
  - apply Q.le_max_l.
  - apply Q.max_lub; [discriminate|apply Q.le_min_l].
  - apply Q.le_max_l.
  - apply Q.max_lub; [discriminate|apply Q.le_min_l].
Qed.

Lemma Inv_move s socketId data :
  Inv s -> Inv (fst (GameServer.handlePlayerMove s socketId data)).
Proof.
  intros HI. unfold GameServer.handlePlayerMove.
  destruct (GameServer.getPlayer s socketId) as [[r player]|] eqn:Hp; auto.
  match goal with |- context [if ?c then _ else _] => destruct c end; auto.
  simpl. apply Inv_setHeap; auto. apply sameShape_modify.
  apply getPlayer_deref in Hp as [_ Hd].
  intros p Hp'. assert (p = player) by congruence. subst p.
  destruct (m_position data) as [pos|], (m_rotation data) as [rot|],
    (m_animation data) as [a|]; try destruct (truthy a); simpl;
    (split; [reflexivity|split; [reflexivity|]]); intros Hb;
    first [exact Hb | apply clamp_bounds].
Qed.

Lemma Inv_worldChange s socketId w :
  Inv s -> Inv (fst (GameServer.handleWorldChange s socketId w)).
Proof.
  intros HI. unfold GameServer.handleWorldChange.
  repeat (break_match; simpl); auto;
    apply Inv_setHeap; auto; apply sameShape_modify; intros; simpl; auto.
Qed.

Lemma Inv_animation s socketId a :
  Inv s -> Inv (fst (GameServer.handleAnimationChange s socketId a)).
Proof.
  intros HI. unfold GameServer.handleAnimationChange.
  repeat (break_match; simpl); auto;
    apply Inv_setHeap; auto; apply sameShape_modify; intros; simpl; auto.
Qed.

Lemma Inv_chat s socketId m :
  Inv s -> Inv (fst (GameServer.handleChat s socketId m)).
Proof.
  intros HI. unfold GameServer.handleChat.
  repeat (break_match; simpl); auto.
Qed.

Lemma collectUpdates_sameShape ps h :
  sameShape h (fst (GameServer.collectUpdates h ps)).
Proof.
  revert h. induction ps as [|r ps IH]; intros h; simpl.
  - apply sameShape_refl.
  - destruct (deref h r) as [player|] eqn:Hr; auto.
    destruct (Player.needsBroadcast player); auto.
    specialize (IH (modify r (Player.setNeedsBroadcast false) h)).
    destruct (GameServer.collectUpdates _ ps) as [h' us]. simpl in *.
    eapply sameShape_trans; [|exact IH].
    apply sameShape_modify. intros; simpl; auto.
Qed.

Lemma broadcastUpdates_heap h ps :
  fst (GameServer.broadcastUpdates h ps) = fst (GameServer.collectUpdates h ps).
Proof.
  unfold GameServer.broadcastUpdates.
  now destruct (GameServer.collectUpdates h ps).
Qed.

Lemma tickRoom_sameShape h room :
  sameShape h (fst (GameServer.tickRoom h room)).
Proof.
  unfold GameServer.tickRoom.
  pose proof (broadcastUpdates_heap h
                (Room.getPlayersInWorldState h "normal" room)) as E1.
  destruct (GameServer.broadcastUpdates h _) as [h1 o1]. simpl in E1.
  pose proof (broadcastUpdates_heap h1
                (Room.getPlayersInWorldState h "upsideDown" room)) as E2.
  destruct (GameServer.broadcastUpdates h1 _) as [h2 o2]. simpl in *.
  subst. eapply sameShape_trans; apply collectUpdates_sameShape.
Qed.

Lemma tickRooms_sameShape (rs : JSMap.t Room.t) h0 h out :
  sameShape h0 h ->
  sameShape h0
    (fst (fold_left
            (fun (acc : list Player.t * list Output) (entry : string * Room.t) =>
               let '(h', out') := GameServer.tickRoom (fst acc) (snd entry) in
               (h', snd acc ++ out'))
            rs (h, out))).
Proof.
  revert h out. induction rs as [|[roomId room] rs IH]; intros h out Hh;
    simpl; auto.
  pose proof (tickRoom_sameShape h room) as Ht.
  destruct (GameServer.tickRoom h room) as [h' out']. simpl in *.
  apply IH. eapply sameShape_trans; eauto.
Qed.

Lemma Inv_tick s : Inv s -> Inv (fst (GameServer.tick s)).
Proof.
  intros HI. unfold GameServer.tick.
  pose proof (@tickRooms_sameShape (GameServer.rooms s) _ _ []
                (sameShape_refl (GameServer.heap s))) as H.
  destruct (fold_left _ _ _) as [h out]. simpl in *.
  now apply Inv_setHeap.
Qed.

(** * The character arbiter *)

Lemma In_set (V : Type) (m : JSMap.t V) k v k' v' :
  In (k', v') (JSMap.set k v m) -> (k' = k /\ v' = v) \/ In (k', v') m.
Proof.
  induction m as [|[k0 v0] m IH]; simpl.
  - intros [[= <- <-]|[]]. auto.
  - destruct (k =? k0); simpl.
    + intros [[= <- <-]|H]; auto.
    + intros [H|H]; auto. destruct (IH H); auto.
Qed.

Lemma In_keys (V : Type) (m : JSMap.t V) k v : In (k, v) m -> In k (JSMap.keys m).
Proof. intros H. change k with (fst (k, v)). now apply in_map. Qed.

Lemma In_values (V : Type) (m : JSMap.t V) k v :
  In (k, v) m -> In v (JSMap.values m).
Proof. intros H. change v with (snd (k, v)). now apply in_map. Qed.

Lemma values_In (V : Type) (m : JSMap.t V) v :
  In v (JSMap.values m) -> exists k, In (k, v) m.
Proof.
  intros H. apply in_map_iff in H as ([k v'] & E & H). simpl in E. subst.
  eauto.
Qed.

Lemma keys_In (V : Type) (m : JSMap.t V) k :
  In k (JSMap.keys m) -> exists v, In (k, v) m.
Proof.
  intros H. apply in_map_iff in H as ([k' v] & E & H). simpl in E. subst.
  eauto.
Qed.

Lemma NoDup_values_inj (V : Type) (m : JSMap.t V) k1 k2 v :
  NoDup (JSMap.values m) -> In (k1, v) m -> In (k2, v) m -> k1 = k2.
Proof.
  induction m as [|[k0 v0] m IH]; simpl; [tauto|].
  intros Hnd H1 H2. inversion Hnd as [|? ? Hni Hnd']; subst.
  destruct H1 as [H1|H1], H2 as [H2|H2]; auto.
  - congruence.
  - injection H1 as -> ->. exfalso. eapply Hni, In_values, H2.
  - injection H2 as -> ->. exfalso. eapply Hni, In_values, H1.
Qed.

Lemma holder_In playerId m c :
  Room.holder playerId m = Some c -> In (c, playerId) m.
Proof.
  induction m as [|[c0 p0] m IH]; simpl; [discriminate|].
  destruct (p0 =? playerId) eqn:E.
  - apply String.eqb_eq in E. subst. intros [= ->]. now left.
  - auto.
Qed.

Lemma holder_None playerId m :
  Room.holder playerId m = None -> ~ In playerId (JSMap.values m).
Proof.
  induction m as [|[c0 p0] m IH]; simpl; [tauto|].
  destruct (p0 =? playerId) eqn:E; [discriminate|].
  apply String.eqb_neq in E. intros H [H1|H1]; [congruence|].
  now apply IH.
Qed.

Section Release.
Variables (playerId : string) (room : Room.t).
Let room' := fst (Room.releaseCharacter playerId room).

Lemma release_players : Room.players room' = Room.players room.
Proof.
  subst room'. unfold Room.releaseCharacter.
  now destruct (Room.holder playerId (Room.selectedCharacters room)).
Qed.

Lemma release_maxPlayers : Room.maxPlayers room' = Room.maxPlayers room.
Proof.
  subst room'. unfold Room.releaseCharacter.
  now destruct (Room.holder playerId (Room.selectedCharacters room)).
Qed.

Lemma release_entries c q :
  In (c, q) (Room.selectedCharacters room') ->
  In (c, q) (Room.selectedCharacters room).
Proof.
  subst room'. unfold Room.releaseCharacter.
  destruct (Room.holder playerId (Room.selectedCharacters room)); simpl; auto.
  intros H. now apply In_delete in H.
Qed.

Lemma release_keeps_others q :
  NoDup (JSMap.keys (Room.selectedCharacters room)) ->
  q <> playerId -> In q (holders room) -> In q (holders room').
Proof.
  intros Hnd Hne Hq. subst room'. unfold Room.releaseCharacter.
  destruct (Room.holder playerId (Room.selectedCharacters room)) as [c|] eqn:Hh;
    simpl; auto.
  apply values_In in Hq as [k Hk]. unfold holders. simpl.
  apply In_values with (k := k). apply In_delete. split; auto.
  intros ->. apply holder_In in Hh.
  apply In_get in Hh, Hk; auto. congruence.
Qed.

Lemma release_drops_holder :
  NoDup (holders room) -> ~ In playerId (holders room').
Proof.
  intros Hnd. subst room'. unfold Room.releaseCharacter.
  destruct (Room.holder playerId (Room.selectedCharacters room)) as [c|] eqn:Hh;
    simpl.
  - unfold holders. simpl. intros H. apply values_In in H as [k Hk].
    apply In_delete in Hk as [Hne Hk]. apply holder_In in Hh.
    apply Hne. eapply NoDup_values_inj; eauto.
  - now apply holder_None.
Qed.

Lemma release_keys :
  NoDup (JSMap.keys (Room.selectedCharacters room)) ->
  NoDup (JSMap.keys (Room.selectedCharacters room')).
Proof.
  intros Hnd. subst room'. unfold Room.releaseCharacter.
  destruct (Room.holder playerId (Room.selectedCharacters room)); simpl; auto.
  now apply NoDup_keys_delete.
Qed.

Lemma release_holders_NoDup : NoDup (holders room) -> NoDup (holders room').
Proof.
  intros Hnd. subst room'. unfold Room.releaseCharacter.
  destruct (Room.holder playerId (Room.selectedCharacters room)); simpl; auto.
  now apply NoDup_values_delete.
Qed.

End Release.

Lemma selectCharacter_success playerId c room room' :
  Room.selectCharacter playerId c room = (room', Room.Success) ->
  In c AVAILABLE_CHARACTERS /\
  JSMap.get c (Room.selectedCharacters room) = None /\
  let room1 := fst (Room.releaseCharacter playerId room) in
  room' = Room.setSelectedCharacters
            (Room.selectedCharacters room1 ++ [(c, playerId)]) room1.
Proof.
  unfold Room.selectCharacter.
  destruct (includes c AVAILABLE_CHARACTERS) eqn:Hin; [|discriminate].
  unfold JSMap.has.
  destruct (JSMap.get c (Room.selectedCharacters room)) eqn:Hget;
    [discriminate|].
  cbn [negb]. intros [= <-].
  split; [now apply includes_In|]. split; [reflexivity|].
  cbv zeta. f_equal. apply set_absent.
  destruct (JSMap.get c (Room.selectedCharacters
                           (fst (Room.releaseCharacter playerId room))))
    as [q|] eqn:E; auto.
  apply get_In in E. apply release_entries in E. apply In_keys in E.
  now apply get_None_keys in Hget.
Qed.

Section Select.
Variables (playerId c : string) (room room' : Room.t).
Hypothesis Hsel : Room.selectCharacter playerId c room = (room', Room.Success).

Lemma select_holders :
  holders room' = holders (fst (Room.releaseCharacter playerId room)) ++ [playerId].
Proof.
  destruct (selectCharacter_success _ _ _ Hsel) as (_ & _ & ->).
  unfold holders, JSMap.values. simpl. now rewrite map_app.
Qed.

Lemma select_keys :
  JSMap.keys (Room.selectedCharacters room')
  = JSMap.keys (Room.selectedCharacters
                  (fst (Room.releaseCharacter playerId room))) ++ [c].
Proof.
  destruct (selectCharacter_success _ _ _ Hsel) as (_ & _ & ->).
  unfold JSMap.keys. simpl. now rewrite map_app.
Qed.

Lemma select_players : Room.players room' = Room.players room.
Proof.
  destruct (selectCharacter_success _ _ _ Hsel) as (_ & _ & ->).
  simpl. apply release_players.
Qed.

Lemma select_holds : In playerId (holders room').
Proof. rewrite select_holders, in_app_iff. right. now left. Qed.

Lemma select_keeps q :
  NoDup (JSMap.keys (Room.selectedCharacters room)) ->
  In q (holders room) -> In q (holders room').
Proof.
  intros Hnd Hq. rewrite select_holders, in_app_iff.
  destruct (string_dec q playerId) as [->|Hne].
  - right. now left.
  - left. now apply release_keeps_others.
Qed.

Lemma select_roomInv : roomInv room -> roomInv room'.
Proof.
  intros [Hk Hh Hc Hr Hrh Hcap].
  destruct (selectCharacter_success _ _ _ Hsel) as (Hin & Hget & E).
  constructor.
  - rewrite select_keys. apply NoDup_app.
    + now apply release_keys.
    + repeat constructor. simpl. tauto.
    + intros k Hk1 [<-|[]]. apply keys_In in Hk1 as [v Hv].
      apply release_entries, In_keys in Hv. now apply get_None_keys in Hget.
  - rewrite select_holders. apply NoDup_app.
    + now apply release_holders_NoDup.
    + repeat constructor. simpl. tauto.
    + intros q Hq [<-|[]]. revert Hq. now apply release_drops_holder.
  - rewrite select_keys. intros k Hk1. apply in_app_iff in Hk1 as [Hk1|[<-|[]]];
      auto.
    apply keys_In in Hk1 as [v Hv]. apply release_entries, In_keys in Hv. auto.
  - unfold readyIds. now rewrite select_players.
  - unfold readyIds. rewrite select_players. intros q Hq.
    apply select_keeps; auto.
  - rewrite E. simpl. now rewrite release_maxPlayers.
Qed.

(** The character the session held before is free afterwards. *)
Lemma select_releases old :
  roomInv room ->
  JSMap.get old (Room.selectedCharacters room) = Some playerId ->
  old <> c /\ JSMap.get old (Room.selectedCharacters room') = None.
Proof.
  intros [Hk Hh Hc Hr Hrh Hcap] Hold.
  destruct (selectCharacter_success _ _ _ Hsel) as (Hin & Hget & E).
  split; [congruence|].
  apply get_None_keys. rewrite select_keys, in_app_iff.
  intros [H|[H|[]]]; [|congruence].
  apply keys_In in H as [v Hv].
  pose proof (release_entries _ _ _ _ Hv) as Hv'.
  apply In_get in Hv'; auto.
  assert (v = playerId) by congruence. subst v.
  apply In_values in Hv. revert Hv. now apply release_drops_holder.
Qed.

End Select.

Lemma removePlayer_roomInv playerId room :
  roomInv room -> roomInv (fst (Room.removePlayer playerId room)).
Proof.
  intros [Hk Hh Hc Hr Hrh Hcap]. unfold Room.removePlayer.
  pose proof (@release_players playerId room) as Hp.
  pose proof (@release_maxPlayers playerId room) as Hm.
  pose proof (@release_keys playerId room Hk) as Hk'.
  pose proof (@release_holders_NoDup playerId room Hh) as Hh'.
  pose proof (@release_keeps_others playerId room) as Hko.
  pose proof (@release_entries playerId room) as He.
  destruct (Room.releaseCharacter playerId room) as [room1 rel]. simpl in *.
  constructor; simpl; auto.
  - intros k Hk1. apply keys_In in Hk1 as [v Hv]. eapply Hc, In_keys, He, Hv.
  - unfold readyIds. simpl. rewrite Hp. now apply NoDup_keys_delete.
  - unfold readyIds. simpl. rewrite Hp. intros q Hq.
    apply keys_In in Hq as [r Hq]. apply In_delete in Hq as [Hne Hq].
    apply Hko; auto. eapply Hrh, In_keys, Hq.
  - congruence.
Qed.

(** Replacing a room by a version of itself. *)
Lemma Inv_setRoom s roomId room room' :
  Inv s ->
  JSMap.get roomId (GameServer.rooms s) = Some room ->
  roomInv room' ->
  (forall q r p, GameServer.getPlayer s q = Some (r, p) ->
                 In q (holders room) -> In q (holders room')) ->
  (forall playerId r,
     In (playerId, r) (Room.players room') ->
     In (playerId, r) (Room.players room) \/
     exists p, deref (GameServer.heap s) r = Some p /\ Player.id p = playerId) ->
  Inv (GameServer.setRooms (JSMap.set roomId room' (GameServer.rooms s)) s).
Proof.
  intros [H1 H2 H3 H4 H5 H6] Hroom Hinv Hhold Hready.
  constructor; simpl; auto.
  - intros rid rm Hin. apply In_set in Hin as [[-> ->]|Hin]; eauto.
  - intros rid rm playerId r Hin Hr.
    apply In_set in Hin as [[-> ->]|Hin]; eauto.
    destruct (Hready _ _ Hr) as [Hold|Hnew]; auto.
    apply get_In in Hroom. eauto.
  - intros socketId r p rid rm Hp Hc Hrid Hget.
    change (GameServer.getPlayer s socketId = Some (r, p)) in Hp.
    change (GameServer.getRoomId s socketId = Some rid) in Hrid.
    destruct (string_dec roomId rid) as [<-|Hne].
    + rewrite get_set_eq in Hget. injection Hget as <-.
      eapply Hhold; eauto.
    + rewrite get_set_ne in Hget by auto. eauto.
  - intros socketId rid Hrid.
    change (GameServer.getRoomId s socketId = Some rid) in Hrid.
    destruct (string_dec roomId rid) as [<-|Hne].
    + rewrite get_set_eq. eauto.
    + rewrite get_set_ne by auto. eauto.
Qed.

(** Recording the selected character on the player object. *)
Lemma Inv_setCharacter s socketId r player c :
  Inv s ->
  GameServer.getPlayer s socketId = Some (r, player) ->
  (forall roomId room,
     GameServer.getRoomId s socketId = Some roomId ->
     JSMap.get roomId (GameServer.rooms s) = Some room ->
     In socketId (holders room)) ->
  Inv (GameServer.setHeap
         (modify r (Player.setCharacter c) (GameServer.heap s)) s).
Proof.
  intros [H1 H2 H3 H4 H5 H6] Hp Hhold.
  apply getPlayer_deref in Hp as [Hr Hd].
  assert (Hsame : forall r0 p0, deref (GameServer.heap s) r0 = Some p0 ->
            exists p', deref (modify r (Player.setCharacter c)
                                (GameServer.heap s)) r0 = Some p' /\
                       Player.id p' = Player.id p0 /\
                       Player.position p' = Player.position p0 /\
                       (r0 <> r -> p' = p0)).
  { intros r0 p0 Hp0. destruct (Nat.eq_dec r r0) as [<-|Hne].
    - exists (Player.setCharacter c p0).
      split; [now apply deref_modify_eq|]. tauto.
    - exists p0. rewrite deref_modify_ne by auto. auto. }
  constructor; simpl; auto.
  - intros sid r0 Hr0. destruct (H2 _ _ Hr0) as (p0 & Hp0 & Hid).
    destruct (Hsame _ _ Hp0) as (p' & Hp' & Hid' & _).
    exists p'. split; congruence.
  - intros rid rm pid r0 Hin Hr0.
    destruct (H3 _ _ _ _ Hin Hr0) as (p0 & Hp0 & Hid).
    destruct (Hsame _ _ Hp0) as (p' & Hp' & Hid' & _).
    exists p'. split; congruence.
  - intros sid r0 p' rid rm Hp' Hc Hrid Hget.
    change (GameServer.getRoomId s sid = Some rid) in Hrid.
    unfold GameServer.getPlayer in Hp'. simpl in Hp'.
    destruct (JSMap.get sid (GameServer.players s)) as [r1|] eqn:Hr1;
      [|discriminate].
    destruct (H2 _ _ Hr1) as (p0 & Hp0 & Hid).
    destruct (Hsame _ _ Hp0) as (p'' & Hp'' & _ & _ & Hne).
    rewrite Hp'' in Hp'. injection Hp' as <- <-.
    destruct (Nat.eq_dec r1 r) as [->|Hneq].
    + destruct (H2 _ _ Hr) as (p1 & Hp1 & Hid1).
      assert (E : sid = socketId) by congruence. rewrite E in *. eauto.
    + rewrite (Hne Hneq) in Hc.
      apply (H4 sid r1 p0 rid rm); auto.
      unfold GameServer.getPlayer. now rewrite Hr1, Hp0.
  - apply Forall_deref. intros r0 p' Hp'.
    destruct (@deref_lt_Some (GameServer.heap s) r0) as [p0 Hp0].
    { rewrite <- (length_modify _ r (Player.setCharacter c)).
      eapply deref_Some_lt, Hp'. }
    destruct (Hsame _ _ Hp0) as (p'' & Hp'' & _ & Hpos & _).
    assert (p'' = p') by congruence. subst p''.
    assert (Hb : bounded p0) by (eapply Forall_deref; eauto).
    unfold bounded in *. now rewrite Hpos.
Qed.

Lemma Inv_select s socketId c :
  Inv s -> Inv (fst (GameServer.handleCharacterSelect s socketId c)).
Proof.
  intros HI. unfold GameServer.handleCharacterSelect.
  destruct (GameServer.getPlayer s socketId) as [[r player]|] eqn:Hp; auto.
  destruct (GameServer.getRoomId s socketId) as [roomId|] eqn:Hrid; auto.
  destruct (JSMap.get roomId (GameServer.rooms s)) as [room|] eqn:Hroom; auto.
  destruct (Room.selectCharacter socketId c room) as [room' [|e]] eqn:Hsel;
    auto.
  simpl.
  assert (Hri : roomInv room) by (eapply inv_rooms, get_In; eauto).
  assert (HI1 : Inv (GameServer.setRooms
                       (JSMap.set roomId room' (GameServer.rooms s)) s)).
  { eapply Inv_setRoom; eauto.
    - eapply select_roomInv; eauto.
    - intros q _ _ _. eapply select_keeps; eauto. apply Hri.
    - intros pid r0. erewrite select_players by eauto. auto. }
  apply (@Inv_setCharacter _ socketId r player c HI1); auto.
  intros rid rm Hrid' Hget.
  change (GameServer.getRoomId s socketId = Some rid) in Hrid'.
  simpl in Hget.
  assert (rid = roomId) by congruence. subst rid.
  rewrite get_set_eq in Hget. injection Hget as <-.
  eapply select_holds; eauto.
Qed.

Lemma Inv_ready s socketId :
  Inv s -> Inv (fst (GameServer.handlePlayerReady s socketId)).
Proof.
  intros HI. unfold GameServer.handlePlayerReady.
  destruct (GameServer.getPlayer s socketId) as [[r player]|] eqn:Hp; auto.
  destruct (GameServer.getRoomId s socketId) as [roomId|] eqn:Hrid; auto.
  destruct (JSMap.get roomId (GameServer.rooms s)) as [room|] eqn:Hroom; auto.
  destruct (truthy_opt (Player.characterId player)) eqn:Hc; auto.
  simpl.
  assert (Hri : roomInv room) by (eapply inv_rooms, get_In; eauto).
  pose proof (getPlayer_deref _ _ Hp) as [Hr Hd].
  destruct (inv_ids HI _ Hr) as (p0 & Hp0 & Hid).
  assert (p0 = player) by congruence. subst p0.
  eapply Inv_setRoom; eauto.
  - destruct Hri as [Hk Hh Hch Hrd Hrh Hcap].
    constructor; simpl; auto.
    + unfold readyIds. simpl. now apply NoDup_keys_set.
    + unfold readyIds. simpl. intros q Hq.
      apply In_keys_set in Hq as [->|Hq]; [|now apply Hrh].
      rewrite Hid. change (In socketId (holders room)).
      eapply inv_character; eauto.
  - intros pid r0 Hin. simpl in Hin.
    apply In_set in Hin as [[-> ->]|Hin]; eauto.
Qed.

(** The invariant only reads the rooms, the two session maps and the
    store. *)
Lemma Inv_fields s s' :
  Inv s ->
  GameServer.rooms s' = GameServer.rooms s ->
  GameServer.players s' = GameServer.players s ->
  GameServer.socketToRoom s' = GameServer.socketToRoom s ->
  GameServer.heap s' = GameServer.heap s ->
  Inv s'.
Proof.
  destruct s, s'. simpl. intros HI -> -> -> ->.
  destruct HI as [H1 H2 H3 H4 H5 H6]. constructor; assumption.
Qed.

Lemma Inv_connection s socketId :
  Inv s -> Inv (fst (GameServer.handleConnection s socketId)).
Proof. intros HI. eapply Inv_fields; eauto. Qed.

Lemma spawn_bounded rnd_x rnd_z id username :
  random rnd_x -> random rnd_z ->
  bounded (Player.create id username (GameServer.getSpawnPosition rnd_x rnd_z)).
Proof.
  unfold random, bounded, CONFIG.minX, CONFIG.maxX, CONFIG.minZ, CONFIG.maxZ.
  simpl. intros [Hx0 Hx1] [Hz0 Hz1]. repeat split; lra.
Qed.

Lemma deref_alloc_new h p : deref (h ++ [p]) (List.length h) = Some p.
Proof. unfold deref. now rewrite nth_error_app2, Nat.sub_diag by lia. Qed.

Lemma Inv_join s socketId data rnd_x rnd_z :
  random rnd_x -> random rnd_z ->
  Inv s -> Inv (fst (GameServer.handlePlayerJoin s socketId data rnd_x rnd_z)).
Proof.
  intros Hx Hz HI. unfold GameServer.handlePlayerJoin.
  set (roomId := match j_roomId data with Some r => r | None => _ end).
  set (username := match j_username data with Some u => u | None => _ end).
  destruct (JSMap.get roomId (GameServer.rooms s)) as [room|] eqn:Hroom; auto.
  destruct (Room.isFull room); auto.
  set (player := Player.setFirebaseUid _ _).
  cbn [alloc fst].
  set (uids := match j_uid data with Some u => _ | None => _ end).
  clearbody uids.
  assert (Hold : forall sid r p,
            sid <> socketId ->
            (JSMap.get sid (JSMap.set socketId (List.length (GameServer.heap s))
                              (GameServer.players s)) = Some r /\
             deref (GameServer.heap s ++ [player]) r = Some p) ->
            GameServer.getPlayer s sid = Some (r, p)).
  { intros sid r p Hne [Hr Hp]. rewrite get_set_ne in Hr by auto.
    destruct (inv_ids HI _ Hr) as (p0 & Hp0 & _).
    rewrite deref_alloc with (p := p0) in Hp by auto.
    unfold GameServer.getPlayer. rewrite Hr, Hp0. congruence. }
  destruct HI as [H1 H2 H3 H4 H5 H6]. constructor; simpl; auto.
  - intros sid r Hr. destruct (string_dec socketId sid) as [<-|Hne].
    + rewrite get_set_eq in Hr. injection Hr as <-.
      exists player. split; [apply deref_alloc_new|reflexivity].
    + rewrite get_set_ne in Hr by auto.
      destruct (H2 _ _ Hr) as (p & Hp & Hid).
      exists p. split; auto. now apply deref_alloc.
  - intros rid rm pid r Hin Hr.
    destruct (H3 _ _ _ _ Hin Hr) as (p & Hp & Hid).
    exists p. split; auto. now apply deref_alloc.
  - intros sid r p rid rm Hp Hc Hrid Hget.
    unfold GameServer.getPlayer in Hp. simpl in Hp.
    unfold GameServer.getRoomId in Hrid. simpl in Hrid.
    destruct (string_dec socketId sid) as [<-|Hne].
    + rewrite get_set_eq, deref_alloc_new in Hp. injection Hp as <- <-.
      discriminate Hc.
    + rewrite get_set_ne in Hrid by auto.
      apply (H4 sid r p rid rm); auto.
      apply Hold; auto.
      destruct (JSMap.get sid _) as [r0|]; [|discriminate].
      destruct (deref _ r0) as [p0|] eqn:E; [|discriminate].
      injection Hp as <- <-. auto.
  - intros sid rid Hrid.
    unfold GameServer.getRoomId in Hrid. simpl in Hrid.
    destruct (string_dec socketId sid) as [<-|Hne].
    + rewrite get_set_eq in Hrid. destruct (truthy roomId); [|discriminate].
      injection Hrid as <-. eauto.
    + rewrite get_set_ne in Hrid by auto. apply (H5 sid). exact Hrid.
  - apply Forall_app. split; auto. constructor; [|constructor].
    subst player. now apply spawn_bounded.
Qed.

Lemma Inv_unregister s socketId :
  Inv s ->
  Inv (GameServer.setSocketToRoom
         (JSMap.delete socketId (GameServer.socketToRoom s))
         (GameServer.setPlayers
            (JSMap.delete socketId (GameServer.players s)) s)).
Proof.
  intros [H1 H2 H3 H4 H5 H6].
  assert (Hp : forall sid r p,
            GameServer.getPlayer
              (GameServer.setSocketToRoom
                 (JSMap.delete socketId (GameServer.socketToRoom s))
                 (GameServer.setPlayers
                    (JSMap.delete socketId (GameServer.players s)) s)) sid
            = Some (r, p) ->
            sid <> socketId /\ GameServer.getPlayer s sid = Some (r, p)).
  { intros sid r p. unfold GameServer.getPlayer. simpl.
    destruct (string_dec socketId sid) as [<-|Hne].
    - now rewrite get_delete_eq.
    - rewrite get_delete_ne by auto. auto. }
  assert (Hr : forall sid rid,
            GameServer.getRoomId
              (GameServer.setSocketToRoom
                 (JSMap.delete socketId (GameServer.socketToRoom s))
                 (GameServer.setPlayers
                    (JSMap.delete socketId (GameServer.players s)) s)) sid
            = Some rid ->
            GameServer.getRoomId s sid = Some rid).
  { intros sid rid. unfold GameServer.getRoomId. simpl.
    destruct (string_dec socketId sid) as [<-|Hne].
    - now rewrite get_delete_eq.
    - now rewrite get_delete_ne by auto. }
  constructor; auto.
  - simpl. intros sid r Hget.
    destruct (string_dec socketId sid) as [<-|Hne].
    + now rewrite get_delete_eq in Hget.
    + rewrite get_delete_ne in Hget by auto. auto.
  - intros sid r p rid rm Hp' Hc Hrid Hget.
    apply Hp in Hp' as [_ Hp']. apply Hr in Hrid. eauto.
  - intros sid rid Hrid. apply Hr in Hrid. eauto.
Qed.

Lemma Inv_disconnect s socketId :
  Inv s -> Inv (fst (GameServer.handleDisconnect s socketId)).
Proof.
  intros HI. pose proof (Inv_unregister socketId HI) as HU.
  set (su := GameServer.setSocketToRoom _ _) in HU.
  unfold GameServer.handleDisconnect.
  destruct (GameServer.getPlayer s socketId) as [[r player]|] eqn:Hp; auto.
  destruct (GameServer.getRoomId s socketId) as [roomId|] eqn:Hrid; auto.
  destruct (JSMap.get roomId (GameServer.rooms s)) as [room|] eqn:Hroom.
  - assert (HR : Inv (GameServer.setRooms
                        (JSMap.set roomId (fst (Room.removePlayer socketId room))
                                   (GameServer.rooms su)) su)).
    { apply Inv_setRoom with (room := room); auto.
      - apply removePlayer_roomInv. eapply inv_rooms, get_In; eauto.
      - intros q r0 p0 Hq Hin.
        assert (Hne : q <> socketId).
        { intros ->. unfold GameServer.getPlayer in Hq. simpl in Hq.
          now rewrite get_delete_eq in Hq. }
        unfold Room.removePlayer.
        pose proof (@release_keeps_others socketId room q) as Hk.
        destruct (Room.releaseCharacter socketId room) as [room1 rel].
        simpl in *. apply Hk; auto.
        eapply ri_keys, inv_rooms, get_In; eauto.
      - intros pid r0. unfold Room.removePlayer.
        pose proof (@release_players socketId room) as Hpl.
        destruct (Room.releaseCharacter socketId room) as [room1 rel].
        simpl in *. rewrite Hpl. intros Hin. left.
        now apply In_delete in Hin. }
    destruct (Room.removePlayer socketId room) as [room' rel].
    eapply Inv_fields; [exact HR| | | |];
      destruct (Player.firebaseUid player) as [u|]; try destruct (truthy u);
      reflexivity.
  - eapply Inv_fields; [exact HU| | | |];
      destruct (Player.firebaseUid player) as [u|]; try destruct (truthy u);
      reflexivity.
Qed.

Lemma Inv_step s i : Inv s -> wellFormed i -> Inv (fst (step s i)).
Proof.
  intros HI Hwf. destruct i as [sid|sid m|]; simpl.
  - now apply Inv_connection.
  - destruct m; simpl in *.
    + destruct Hwf. now apply Inv_join.
    + now apply Inv_select.
    + now apply Inv_ready.
    + now apply Inv_move.
    + now apply Inv_worldChange.
    + now apply Inv_animation.
    + now apply Inv_chat.
    + apply Inv_disconnect. eapply Inv_fields; eauto.
  - now apply Inv_tick.
Qed.

Lemma reachable_Inv s : reachable s -> Inv s.
Proof.
  induction 1 as [|s i Hs IH Hwf].
  - apply Inv_create.
  - now apply Inv_step.
Qed.

Lemma reachable_run s inputs :
  reachable s -> Forall wellFormed inputs -> reachable (fst (run s inputs)).
Proof.
  revert s. induction inputs as [|i inputs IH]; intros s Hs Hwf; simpl; auto.
  inversion Hwf as [|? ? Hi Hrest]; subst.
  pose proof (reachable_step i Hs Hi) as H1.
  destruct (step s i) as [s1 out1]. simpl in H1.
  specialize (IH s1 H1 Hrest).
  now destruct (run s1 inputs) as [s2 out2].
Qed.

Lemma random_half : random half.
Proof. split; [discriminate|reflexivity]. Qed.

Lemma reachable_lobby : reachable lobby.
Proof.
  apply reachable_run; [constructor|].
  repeat constructor; apply random_half.
Qed.

(** * Position bounds *)



(** * Character ownership *)

Lemma selectCharacter_failure playerId c room room' e :
  Room.selectCharacter playerId c room = (room', Room.Failure e) ->
  room' = room.
Proof.
  unfold Room.selectCharacter.
  repeat (break_match; simpl); congruence.
Qed.

(** C3.  At most one owner, at most one character: in every reachable
    state and every room, no character has two entries and no session is
    the holder of two characters.  A successful [selectCharacter] is one
    transition of the room: afterwards the caller holds the new character
    and nothing else, any character it held before is free, and the room
    again satisfies both uniqueness properties; a failed one leaves the
    room untouched. *)
Theorem character_ownership (s : GameServer.t) (roomId : string) (room : Room.t) :
  reachable s ->
  In (roomId, room) (GameServer.rooms s) ->
  (forall c p1 p2,
     In (c, p1) (Room.selectedCharacters room) ->
     In (c, p2) (Room.selectedCharacters room) -> p1 = p2)
  /\
  (forall c1 c2 p,
     In (c1, p) (Room.selectedCharacters room) ->
     In (c2, p) (Room.selectedCharacters room) -> c1 = c2)
  /\
  (forall playerId c room',
     Room.selectCharacter playerId c room = (room', Room.Success) ->
     JSMap.get c (Room.selectedCharacters room') = Some playerId /\
     (forall c', In (c', playerId) (Room.selectedCharacters room') -> c' = c) /\
     (forall old,
        JSMap.get old (Room.selectedCharacters room) = Some playerId ->
        old <> c /\ JSMap.get old (Room.selectedCharacters room') = None) /\
     NoDup (JSMap.keys (Room.selectedCharacters room')) /\
     NoDup (holders room'))
  /\
  (forall playerId c room' e,
     Room.selectCharacter playerId c room = (room', Room.Failure e) ->
     room' = room).
Proof.
  intros Hs Hin.
  assert (Hri : roomInv room) by (eapply inv_rooms; eauto using reachable_Inv).
  split; [|split; [|split]].
  - intros c p1 p2 H1 H2.
    apply In_get in H1, H2; try apply Hri. congruence.
  - intros c1 c2 p H1 H2. eapply NoDup_values_inj; eauto. apply Hri.
  - intros playerId c room' Hsel.
    pose proof (@select_roomInv _ _ _ _ Hsel Hri) as Hri'.
    assert (Hc : In (c, playerId) (Room.selectedCharacters room')).
    { destruct (selectCharacter_success _ _ _ Hsel) as (_ & _ & ->).
      simpl. apply in_app_iff. right. now left. }
    split; [apply In_get; auto; apply Hri'|].
    split; [|split; [|split; apply Hri']].
    + intros c' Hc'. eapply NoDup_values_inj; eauto. apply Hri'.
    + intros old Hold. eapply select_releases; eauto.
  - intros playerId c room' e Hsel. eapply selectCharacter_failure; eauto.
Qed.

Lemma character_ownership_witness :
  JSMap.get "will"
    (Room.selectedCharacters (fst (Room.selectCharacter "A" "will" lobbyRoom)))
  = Some "A" /\
  JSMap.get "eleven"
    (Room.selectedCharacters (fst (Room.selectCharacter "A" "will" lobbyRoom)))
  = None.
Proof.
  assert (Hin : In ("hawkins-1", lobbyRoom) (GameServer.rooms lobby))
    by (left; reflexivity).
  destruct (character_ownership "hawkins-1" lobbyRoom reachable_lobby Hin)
    as (_ & _ & Hsel & _).
  destruct (Hsel "A" "will" (fst (Room.selectCharacter "A" "will" lobbyRoom))
              eq_refl) as (Hnew & _ & Hold & _).
  split; [exact Hnew|]. apply (Hold "eleven"). reflexivity.
Defined.

(** * Room capacity *)





(** * World change *)



Lemma reachable_bothReady : reachable bothReady.
Proof.
  apply reachable_run; [apply reachable_lobby|].
  repeat constructor.
Qed.


(** * Tick batching *)

Lemma NoDup_values_of_keys (V : Type) (m : JSMap.t V) :
  NoDup (JSMap.keys m) ->
  (forall k1 k2 v, In (k1, v) m -> In (k2, v) m -> k1 = k2) ->
  NoDup (JSMap.values m).
Proof.
  induction m as [|[k v] m IH]; simpl; intros Hnd Hinj; constructor.
  - intros Hv. apply values_In in Hv as [k' Hk'].
    inversion Hnd as [|? ? Hni _]; subst. apply Hni.
    rewrite (Hinj k k' v); [eapply In_keys; eauto| |]; auto.
  - inversion Hnd; subst. apply IH; auto.
    intros k1 k2 v0 Hk1 Hk2. eapply Hinj; right; eauto.
Qed.

Lemma roomPlayers_NoDup s roomId room :
  Inv s -> In (roomId, room) (GameServer.rooms s) ->
  NoDup (JSMap.values (Room.players room)).
Proof.
  intros HI Hin. apply NoDup_values_of_keys.
  - eapply ri_ready, inv_rooms; eauto.
  - intros k1 k2 r H1 H2.
    destruct (inv_ready_ids HI _ _ _ _ Hin H1) as (p1 & Hp1 & Hid1).
    destruct (inv_ready_ids HI _ _ _ _ Hin H2) as (p2 & Hp2 & Hid2).
    congruence.
Qed.

Lemma objects_agree h h' (ps : list ref) :
  (forall r, In r ps -> deref h' r = deref h r) ->
  objects h' ps = objects h ps.
Proof.
  induction ps as [|a ps IH]; simpl; auto.
  intros H. rewrite (H a) by auto. now rewrite IH by auto.
Qed.


Lemma collectUpdates_spec (ps : list ref) h :
  NoDup ps ->
  snd (GameServer.collectUpdates h ps)
  = map toUpdate (filter Player.needsBroadcast (objects h ps)) /\
  (forall r, In r ps ->
     deref (fst (GameServer.collectUpdates h ps)) r
     = option_map clearDirty (deref h r)) /\
  (forall r, ~ In r ps ->
     deref (fst (GameServer.collectUpdates h ps)) r = deref h r).
Proof.
  revert h. induction ps as [|a ps IH]; intros h Hnd.
  - simpl. repeat split; auto. intros r [].
  - inversion Hnd as [|? ? Hni Hnd']; subst. simpl.
    destruct (deref h a) as [p|] eqn:Ha;
      [destruct (Player.needsBroadcast p) eqn:Hd|].
    + destruct (IH (modify a (Player.setNeedsBroadcast false) h) Hnd')
        as (Hus & Hin & Hout).
      destruct (GameServer.collectUpdates _ ps) as [h' us]. simpl in *.
      assert (Hobj : objects (modify a (Player.setNeedsBroadcast false) h) ps
                     = objects h ps).
      { apply objects_agree. intros r Hr. apply deref_modify_ne. congruence. }
      simpl. rewrite Hd. simpl. split; [|split].
      * f_equal. now rewrite Hus, Hobj.
      * intros r [<-|Hr].
        -- rewrite (Hout _ Hni), (deref_modify_eq _ _ _ Ha), Ha. simpl.
           unfold clearDirty. now rewrite Hd.
        -- rewrite (Hin _ Hr), deref_modify_ne; auto. congruence.
      * intros r Hr. rewrite Hout by tauto. apply deref_modify_ne. tauto.
    + destruct (IH h Hnd') as (Hus & Hin & Hout).
      simpl. rewrite Hd. simpl. split; [exact Hus|split].
      * intros r [<-|Hr]; auto.
        rewrite (Hout _ Hni), Ha. simpl. unfold clearDirty. now rewrite Hd.
      * intros r Hr. apply Hout. tauto.
    + destruct (IH h Hnd') as (Hus & Hin & Hout).
      split; [exact Hus|split].
      * intros r [<-|Hr]; auto. rewrite (Hout _ Hni), Ha. reflexivity.
      * intros r Hr. apply Hout. tauto.
Qed.




Lemma getPlayersInWorldState_NoDup s roomId room worldState :
  Inv s -> In (roomId, room) (GameServer.rooms s) ->
  NoDup (Room.getPlayersInWorldState (GameServer.heap s) worldState room).
Proof.
  intros HI Hin. apply NoDup_filter. eapply roomPlayers_NoDup; eauto.
Qed.




Lemma getPlayer_modify s socketId r p p' :
  GameServer.getPlayer s socketId = Some (r, p) ->
  GameServer.getPlayer
    (GameServer.setHeap (modify r (fun _ => p') (GameServer.heap s)) s) socketId
  = Some (r, p').
Proof.
  intros Hp. apply getPlayer_deref in Hp as [Hr Hd].
  unfold GameServer.getPlayer. simpl.
  now rewrite Hr, (deref_modify_eq _ _ _ Hd).
Qed.


(** The handlers replace rooms in place and never add or drop one. *)
Lemma step_rooms s i :
  GameServer.rooms (fst (step s i)) = GameServer.rooms s \/
  exists roomId room room',
    JSMap.get roomId (GameServer.rooms s) = Some room /\
    GameServer.rooms (fst (step s i))
    = JSMap.set roomId room' (GameServer.rooms s).
Proof.
  destruct i as [sid|sid m|]; simpl.
  - now left.
  - destruct m; simpl.
    + left. unfold GameServer.handlePlayerJoin.
      repeat (break_match; simpl); reflexivity.
    + unfold GameServer.handleCharacterSelect.
      repeat (break_match; simpl);
        try (left; reflexivity); right; eauto 10.
    + unfold GameServer.handlePlayerReady.
      repeat (break_match; simpl);
        try (left; reflexivity); right; eauto 10.
    + left. unfold GameServer.handlePlayerMove.
      repeat (break_match; simpl); reflexivity.
    + left. unfold GameServer.handleWorldChange.
      repeat (break_match; simpl); reflexivity.
    + left. unfold GameServer.handleAnimationChange.
      repeat (break_match; simpl); reflexivity.
    + left. unfold GameServer.handleChat.
      repeat (break_match; simpl); reflexivity.
    + unfold GameServer.handleDisconnect.
      repeat (break_match; simpl);
        try (left; reflexivity); right; eauto 10.
  - left. unfold GameServer.tick. now destruct (fold_left _ _ _).
Qed.

Lemma reachable_single_room s :
  reachable s -> exists room, GameServer.rooms s = [("hawkins-1", room)].
Proof.
  induction 1 as [|s i Hs [room IH] Hwf].
  - eexists. reflexivity.
  - destruct (step_rooms s i) as [->|(roomId & rm & rm' & Hget & ->)]; eauto.
    rewrite IH in *. simpl in *.
    destruct (roomId =? "hawkins-1") eqn:E; [|discriminate].
    apply String.eqb_eq in E. subst roomId. eauto.
Qed.



Lemma reachable_calm : reachable calm.
Proof.
  apply reachable_run; [apply reachable_bothReady|].
  repeat constructor.
Qed.


(** * Further properties of the room *)

(** X1.  Contention: once a session has selected a character, every
    further selection of that character, by the holder or by anyone else,
    is refused with "Character already taken" and leaves the room as it
    is. *)
Theorem selected_character_is_taken
        (room room' : Room.t) (playerId c other : string) :
  Room.selectCharacter playerId c room = (room', Room.Success) ->
  Room.selectCharacter other c room'
  = (room', Room.Failure "Character already taken").
Proof.
  intros Hsel.
  destruct (selectCharacter_success _ _ _ Hsel) as (Hin & Hfree & E).
  assert (Hget : JSMap.get c (Room.selectedCharacters room') = Some playerId).
  { cbv zeta in E. rewrite E. simpl.
    rewrite <- set_absent.
    - apply get_set_eq.
    - destruct (JSMap.get c (Room.selectedCharacters
                               (fst (Room.releaseCharacter playerId room))))
        as [q|] eqn:Eq; auto.
      apply get_In in Eq. apply release_entries in Eq. apply In_keys in Eq.
      now apply get_None_keys in Hfree. }
  unfold Room.selectCharacter.
  apply includes_In in Hin. rewrite Hin. cbn [negb].
  unfold JSMap.has. now rewrite Hget.
Qed.

Lemma selected_character_is_taken_witness :
  Room.selectCharacter "B" "eleven" roomWithEleven
  = (roomWithEleven, Room.Failure "Character already taken").
Proof.
  apply (@selected_character_is_taken (Room.create "hawkins-1" 30)
           roomWithEleven "A" "eleven" "B").
  reflexivity.
Defined.

Lemma holder_of_In playerId (m : JSMap.t string) c :
  NoDup (JSMap.values m) -> In (c, playerId) m ->
  Room.holder playerId m = Some c.
Proof.
  intros Hnd Hin.
  destruct (Room.holder playerId m) as [c'|] eqn:E.
  - apply holder_In in E. f_equal. eapply NoDup_values_inj; eauto.
  - apply holder_None in E. exfalso. apply E. eapply In_values; eauto.
Qed.

Lemma holder_app_other q (m : JSMap.t string) c playerId :
  playerId <> q ->
  Room.holder q (m ++ [(c, playerId)]) = Room.holder q m.
Proof.
  intros Hne. induction m as [|[c0 p0] m IH]; simpl.
  - apply String.eqb_neq in Hne. now rewrite Hne.
  - destruct (p0 =? q); auto.
Qed.

Lemma roomInv_reachable s roomId room :
  reachable s -> In (roomId, room) (GameServer.rooms s) -> roomInv room.
Proof. intros Hs Hin. eapply inv_rooms; eauto using reachable_Inv. Qed.

Lemma release_other_holder playerId room q :
  roomInv room -> q <> playerId ->
  Room.getPlayerCharacter q (fst (Room.releaseCharacter playerId room))
  = Room.getPlayerCharacter q room.
Proof.
  intros Hri Hne. unfold Room.getPlayerCharacter.
  destruct (Room.holder q (Room.selectedCharacters room)) as [c|] eqn:E.
  - apply holder_of_In.
    + apply (release_holders_NoDup playerId room), Hri.
    + apply holder_In in E. unfold Room.releaseCharacter.
      destruct (Room.holder playerId (Room.selectedCharacters room))
        as [c0|] eqn:E0; simpl; auto.
      apply In_delete. split; auto. intros ->.
      apply holder_In in E0.
      apply In_get in E, E0; try apply Hri. congruence.
  - destruct (Room.holder q
                (Room.selectedCharacters
                   (fst (Room.releaseCharacter playerId room))))
      as [c|] eqn:E'; auto.
    apply holder_In in E'. apply release_entries in E'.
    apply In_values in E'. now apply holder_None in E.
Qed.

(** X2.  Round trips of the arbiter, in a room of a reachable state:
    [releaseCharacter] returns what [getPlayerCharacter] reports and
    afterwards the session holds nothing; after a successful
    [selectCharacter] the session holds exactly the selected character;
    and neither operation changes what another session holds. *)
Theorem arbiter_round_trips
        (s : GameServer.t) (roomId : string) (room : Room.t)
        (playerId : string) :
  reachable s ->
  In (roomId, room) (GameServer.rooms s) ->
  snd (Room.releaseCharacter playerId room)
  = Room.getPlayerCharacter playerId room
  /\
  Room.getPlayerCharacter playerId (fst (Room.releaseCharacter playerId room))
  = None
  /\
  (forall q, q <> playerId ->
     Room.getPlayerCharacter q (fst (Room.releaseCharacter playerId room))
     = Room.getPlayerCharacter q room)
  /\
  (forall c room',
     Room.selectCharacter playerId c room = (room', Room.Success) ->
     Room.getPlayerCharacter playerId room' = Some c /\
     forall q, q <> playerId ->
       Room.getPlayerCharacter q room' = Room.getPlayerCharacter q room).
Proof.
  intros Hs Hin. pose proof (roomInv_reachable _ _ Hs Hin) as Hri.
  assert (Hother : forall q, q <> playerId ->
            Room.getPlayerCharacter q (fst (Room.releaseCharacter playerId room))
            = Room.getPlayerCharacter q room).
  { intros q Hne. now apply release_other_holder. }
  split; [|split; [|split; [exact Hother|]]].
  - unfold Room.releaseCharacter, Room.getPlayerCharacter.
    now destruct (Room.holder playerId (Room.selectedCharacters room)).
  - unfold Room.getPlayerCharacter.
    destruct (Room.holder playerId
                (Room.selectedCharacters
                   (fst (Room.releaseCharacter playerId room))))
      as [c|] eqn:E; auto.
    apply holder_In in E. apply In_values in E.
    exfalso. revert E. apply release_drops_holder, Hri.
  - intros c room' Hsel.
    pose proof (@select_roomInv _ _ _ _ Hsel Hri) as Hri'.
    destruct (selectCharacter_success _ _ _ Hsel) as (_ & _ & E).
    cbv zeta in E. split.
    + apply holder_of_In; [apply Hri'|].
      rewrite E. simpl. apply in_app_iff. right. now left.
    + intros q Hne. rewrite <- (Hother q Hne).
      unfold Room.getPlayerCharacter. rewrite E. simpl.
      apply holder_app_other. congruence.
Qed.

Lemma arbiter_round_trips_witness :
  Room.getPlayerCharacter "A" lobbyRoom = Some "eleven" /\
  snd (Room.releaseCharacter "A" lobbyRoom) = Some "eleven" /\
  Room.getPlayerCharacter "A" (fst (Room.releaseCharacter "A" lobbyRoom))
  = None.
Proof.
  assert (Hin : In ("hawkins-1", lobbyRoom) (GameServer.rooms lobby))
    by (left; reflexivity).
  destruct (@arbiter_round_trips lobby "hawkins-1" lobbyRoom "A"
              reachable_lobby Hin) as (H1 & H2 & _).
  split; [reflexivity|]. split; [rewrite H1; reflexivity|exact H2].
Defined.

Lemma size_set (V : Type) (m : JSMap.t V) k v :
  JSMap.size (JSMap.set k v m)
  = if JSMap.has k m then JSMap.size m else S (JSMap.size m).
Proof.
  unfold JSMap.has. destruct (JSMap.get k m) as [v0|] eqn:E.
  - rewrite !size_keys. now rewrite keys_set_present with (v0 := v0).
  - rewrite set_absent by exact E. unfold JSMap.size.
    rewrite length_app. simpl. lia.
Qed.

Lemma size_delete (V : Type) (m : JSMap.t V) k :
  (JSMap.size (JSMap.delete k m) <= JSMap.size m)%nat.
Proof.
  rewrite delete_filter. unfold JSMap.size. apply filter_length_le.
Qed.

(** X3.  Round trips of the roster of a room: a player that was added is
    found under its id and nobody else's entry moves; the count grows by
    one for a new id and stays for a known one; a removed player is gone,
    the others stay, and the count does not grow; the serialized count is
    the number of players. *)
Theorem roster_round_trips
        (room : Room.t) (r : ref) (player : Player.t) (playerId : string) :
  Room.getPlayer (Player.id player) (Room.addPlayer r player room) = Some r
  /\
  (forall q, q <> Player.id player ->
     Room.getPlayer q (Room.addPlayer r player room) = Room.getPlayer q room)
  /\
  Room.getPlayerCount (Room.addPlayer r player room)
  = (if JSMap.has (Player.id player) (Room.players room)
     then Room.getPlayerCount room else S (Room.getPlayerCount room))
  /\
  Room.getPlayer playerId (fst (Room.removePlayer playerId room)) = None
  /\
  (forall q, q <> playerId ->
     Room.getPlayer q (fst (Room.removePlayer playerId room))
     = Room.getPlayer q room)
  /\
  (Room.getPlayerCount (fst (Room.removePlayer playerId room))
   <= Room.getPlayerCount room)%nat
  /\
  Room.playerCount (Room.serialize room) = List.length (Room.getAllPlayers room).
Proof.
  assert (Hrm : Room.players (fst (Room.removePlayer playerId room))
                = JSMap.delete playerId (Room.players room)).
  { unfold Room.removePlayer.
    pose proof (@release_players playerId room) as Hp.
    destruct (Room.releaseCharacter playerId room) as [room1 rel].
    simpl in *. now rewrite Hp. }
  unfold Room.getPlayer, Room.getPlayerCount. rewrite Hrm.
  repeat split.
  - apply get_set_eq.
  - intros q Hne. simpl. apply get_set_ne. congruence.
  - simpl. apply size_set.
  - apply get_delete_eq.
  - intros q Hne. apply get_delete_ne. congruence.
  - apply size_delete.
  - simpl. apply size_values.
Qed.

(** * The character snapshot *)

Lemma filter_has_length (m : JSMap.t string) (l : list string) :
  NoDup l -> NoDup (JSMap.keys m) -> incl (JSMap.keys m) l ->
  List.length (filter (fun c => JSMap.has c m) l) = JSMap.size m.
Proof.
  intros Hl Hk Hincl. rewrite size_keys. apply Nat.le_antisymm.
  - apply NoDup_incl_length; [now apply NoDup_filter|].
    intros c Hc. apply filter_In in Hc as [_ Hc].
    apply has_true_iff in Hc as [v Hv]. eapply In_keys, get_In, Hv.
  - apply NoDup_incl_length; auto.
    intros c Hc. apply filter_In. split; auto.
    apply has_true_iff. apply keys_In in Hc as [v Hv].
    exists v. now apply In_get.
Qed.

Lemma AVAILABLE_NoDup : NoDup AVAILABLE_CHARACTERS.
Proof.
  unfold AVAILABLE_CHARACTERS.
  repeat (constructor; [simpl; intuition discriminate|]). constructor.
Qed.

(** X4.  The snapshot [getCharacterStates] lists the six characters in
    their fixed order, marks a character available exactly when nobody
    holds it, and names no holder for an available one;
    [getAvailableCharacters] is the list of the characters the snapshot
    marks available.  In a room of a reachable state the available
    characters and the taken ones add up to six. *)
Theorem snapshot_of_characters (room : Room.t) :
  map Room.cs_id (Room.getCharacterStates room) = AVAILABLE_CHARACTERS
  /\
  (forall e, In e (Room.getCharacterStates room) ->
     (Room.available e = true <->
      JSMap.get (Room.cs_id e) (Room.selectedCharacters room) = None) /\
     (Room.available e = true -> Room.takenBy e = None) /\
     (forall q, Room.takenBy e = Some q ->
        JSMap.get (Room.cs_id e) (Room.selectedCharacters room) = Some q))
  /\
  Room.getAvailableCharacters room
  = map Room.cs_id (filter Room.available (Room.getCharacterStates room))
  /\
  (forall s roomId,
     reachable s -> In (roomId, room) (GameServer.rooms s) ->
     (List.length (Room.getAvailableCharacters room)
      + JSMap.size (Room.selectedCharacters room) = 6)%nat).
Proof.
  unfold Room.getCharacterStates, Room.getAvailableCharacters.
  split; [|split; [|split]].
  - induction AVAILABLE_CHARACTERS as [|c l IH]; simpl; congruence.
  - intros e He. apply in_map_iff in He as (c & <- & _). simpl.
    unfold JSMap.has.
    destruct (JSMap.get c (Room.selectedCharacters room)) as [q|]; simpl.
    + repeat split; try discriminate.
      intros q'. destruct (truthy q); congruence.
    + repeat split; auto; discriminate.
  - induction AVAILABLE_CHARACTERS as [|c l IH]; simpl; auto.
    destruct (negb (JSMap.has c (Room.selectedCharacters room))); simpl;
      now rewrite IH.
  - intros s roomId Hs Hin.
    pose proof (roomInv_reachable _ _ Hs Hin) as [Hk _ Hc _ _ _].
    rewrite <- (@filter_has_length _ _ AVAILABLE_NoDup Hk Hc).
    rewrite Nat.add_comm.
    apply (filter_length
             (fun c => JSMap.has c (Room.selectedCharacters room))
             AVAILABLE_CHARACTERS).
Qed.

Lemma snapshot_of_characters_witness :
  (List.length (Room.getAvailableCharacters lobbyRoom)
   + JSMap.size (Room.selectedCharacters lobbyRoom) = 6)%nat.
Proof.
  destruct (snapshot_of_characters lobbyRoom) as (_ & _ & _ & H).
  apply (H lobby "hawkins-1" reachable_lobby). left. reflexivity.
Defined.

(** * The clamp *)

(** X5.  The clamp of the move handler never touches [y], is idempotent,
    and returns a coordinate that is inside the bounds as the same
    number. *)
Theorem clamp_is_a_projection (pos : Vec3) :
  y (GameServer.clamp pos) = y pos
  /\
  GameServer.clamp (GameServer.clamp pos) = GameServer.clamp pos
  /\
  (-500 <= x pos -> x pos <= 500 -> x (GameServer.clamp pos) == x pos)
  /\
  (-500 <= z pos -> z pos <= 500 -> z (GameServer.clamp pos) == z pos).
Proof.
  split; [reflexivity|]. split; [|split].
  - unfold GameServer.clamp. simpl. f_equal.
    + unfold Qmax, Qmin, GenericMinMax.gmax, GenericMinMax.gmin.
      destruct (Qcompare CONFIG.maxX (x pos)) eqn:E1; try reflexivity.
      destruct (Qcompare CONFIG.minX (x pos)) eqn:E2; try reflexivity.
      now rewrite E1, E2.
    + unfold Qmax, Qmin, GenericMinMax.gmax, GenericMinMax.gmin.
      destruct (Qcompare CONFIG.maxZ (z pos)) eqn:E1; try reflexivity.
      destruct (Qcompare CONFIG.minZ (z pos)) eqn:E2; try reflexivity.
      now rewrite E1, E2.
  - intros Hlo Hhi. unfold GameServer.clamp. simpl.
    rewrite Q.min_r by exact Hhi. apply Q.max_r. exact Hlo.
  - intros Hlo Hhi. unfold GameServer.clamp. simpl.
    rewrite Q.min_r by exact Hhi. apply Q.max_r. exact Hlo.
Qed.

Lemma clamp_is_a_projection_witness :
  x (GameServer.clamp {| x := 3; y := 7; z := 1000 |}) == 3.
Proof.
  apply (clamp_is_a_projection {| x := 3; y := 7; z := 1000 |});
    discriminate.
Defined.

(** * What the gateway never does *)







Ltac split_In :=
  repeat match goal with
    | H : In _ (_ ++ _) |- _ => apply in_app_iff in H; destruct H as [H|H]
    | H : In _ (map _ _) |- _ =>
        apply in_map_iff in H; destruct H as (? & H & ?)
    | H : In _ (_ :: _) |- _ => destruct H as [H|H]
    | H : In _ [] |- _ => destruct H
    | H : _ \/ _ |- _ => destruct H as [H|H]
    | H : False |- _ => destruct H
    end.

(** X7.  Refusals are private and change nothing: whenever a message of a
    session is answered with an [error] or a [character:selectFailed]
    event, that event is the whole output, it goes to the sender alone,
    and the server state is what it was.  This holds in every state. *)
Theorem refusals_are_private
        (s : GameServer.t) (socketId : string) (m : Message)
        (target : Target) (ev : Event) :
  In (Emit target ev) (snd (step s (Receive socketId m))) ->
  isRefusal ev = true ->
  step s (Receive socketId m) = (s, [Emit (Socket socketId) ev]).
Proof.
  destruct m; simpl.
  - unfold GameServer.handlePlayerJoin.
    repeat (break_match; simpl); intros Hin Href; split_In;
      try discriminate; try (injection Hin as <- <-; try discriminate Href);
      reflexivity.
  - unfold GameServer.handleCharacterSelect.
    repeat (break_match; simpl); intros Hin Href; split_In;
      try discriminate; try (injection Hin as <- <-; try discriminate Href);
      reflexivity.
  - unfold GameServer.handlePlayerReady.
    repeat (break_match; simpl); intros Hin Href; split_In;
      try discriminate; try (injection Hin as <- <-; try discriminate Href);
      reflexivity.
  - unfold GameServer.handlePlayerMove.
    repeat (break_match; simpl); intros Hin Href; split_In.
  - unfold GameServer.handleWorldChange.
    repeat (break_match; simpl); intros Hin Href; split_In;
      try discriminate; injection Hin as <- <-; discriminate Href.
  - unfold GameServer.handleAnimationChange.
    repeat (break_match; simpl); intros Hin Href; split_In.
  - unfold GameServer.handleChat.
    repeat (break_match; simpl); intros Hin Href; split_In;
      try discriminate; injection Hin as <- <-; discriminate Href.
  - unfold GameServer.handleDisconnect.
    repeat (break_match; simpl); intros Hin Href; split_In;
      try discriminate; injection Hin as <- <-; discriminate Href.
Qed.

Lemma refusals_are_private_witness :
  step lobby (Receive "A" (player_selectCharacter "mike"))
  = (lobby,
     [Emit (Socket "A")
        (character_selectFailed "Character already taken"
           (Room.getCharacterStates lobbyRoom))]).
Proof.
  apply (@refusals_are_private lobby "A" (player_selectCharacter "mike")
           (Socket "A")
           (character_selectFailed "Character already taken"
              (Room.getCharacterStates lobbyRoom))).
  - vm_compute. left. reflexivity.
  - reflexivity.
Defined.

(** * Partitions and chat *)

Lemma In_objects h (refs : list ref) p :
  In p (objects h refs) <-> exists r, In r refs /\ deref h r = Some p.
Proof.
  unfold objects. rewrite in_flat_map. split.
  - intros (r & Hr & Hp). exists r. split; auto.
    destruct (deref h r) as [q|]; [|destruct Hp].
    destruct Hp as [->|[]]. reflexivity.
  - intros (r & Hr & Hp). exists r. split; auto. rewrite Hp. now left.
Qed.

Lemma In_partition s room worldState p :
  In p (partition s room worldState) <->
  exists r, In r (JSMap.values (Room.players room)) /\
            deref (GameServer.heap s) r = Some p /\
            Player.worldState p = worldState.
Proof.
  unfold partition, Room.getPlayersInWorldState. rewrite In_objects. split.
  - intros (r & Hr & Hp). apply filter_In in Hr as [Hr Hw].
    rewrite Hp in Hw. apply String.eqb_eq in Hw. eauto.
  - intros (r & Hr & Hp & Hw). exists r. split; auto.
    apply filter_In. split; auto. rewrite Hp. now apply String.eqb_eq.
Qed.





(** * More on the tick *)

Lemma tick_single_room s roomId room :
  GameServer.rooms s = [(roomId, room)] ->
  snd (GameServer.tick s) = snd (GameServer.tickRoom (GameServer.heap s) room) /\
  GameServer.heap (fst (GameServer.tick s))
  = fst (GameServer.tickRoom (GameServer.heap s) room) /\
  GameServer.rooms (fst (GameServer.tick s)) = GameServer.rooms s.
Proof.
  intros Hrooms. unfold GameServer.tick. rewrite Hrooms. simpl.
  destruct (GameServer.tickRoom (GameServer.heap s) room) as [h out].
  simpl. now rewrite Hrooms.
Qed.




Lemma clearDirty_facts p :
  Player.needsBroadcast (clearDirty p) = false /\
  Player.worldState (clearDirty p) = Player.worldState p /\
  Player.id (clearDirty p) = Player.id p.
Proof.
  unfold clearDirty. destruct (Player.needsBroadcast p) eqn:E; auto.
Qed.

Lemma broadcastUpdates_silent h (ps : list ref) :
  (forall p, In p (objects h ps) -> Player.needsBroadcast p = false) ->
  snd (GameServer.broadcastUpdates h ps) = [] /\
  fst (GameServer.broadcastUpdates h ps) = h.
Proof.
  intros Hclean. unfold GameServer.broadcastUpdates.
  assert (E : GameServer.collectUpdates h ps = (h, [])).
  { induction ps as [|r ps IH]; simpl; auto.
    destruct (deref h r) as [p|] eqn:Hr.
    - rewrite (Hclean p).
      + apply IH. intros q Hq. apply Hclean. simpl. rewrite Hr.
        now right.
      + simpl. rewrite Hr. now left.
    - apply IH. intros q Hq. apply Hclean. simpl. now rewrite Hr. }
  now rewrite E.
Qed.

(** X10.  A tick leaves nothing to say: in a reachable state, a second
    tick right after a tick emits nothing and changes nothing. *)
Theorem second_tick_is_silent (s : GameServer.t) :
  reachable s ->
  step (fst (step s Tick)) Tick = (fst (step s Tick), []).
Proof.
  intros Hs. pose proof (reachable_Inv Hs) as HI.
  destruct (reachable_single_room Hs) as [room Hrooms].
  assert (Hin : In ("hawkins-1", room) (GameServer.rooms s))
    by (rewrite Hrooms; now left).
  simpl.
  destruct (tick_single_room _ Hrooms) as (_ & Hheap & Hrooms1).
  set (s1 := fst (GameServer.tick s)) in *.
  rewrite Hrooms in Hrooms1.
  (* the store after the first tick *)
  assert (Hclean : forall ws p,
             ws = "normal" \/ ws = "upsideDown" ->
             In p (partition s1 room ws) -> Player.needsBroadcast p = false).
  { intros ws p Hws Hp. apply In_partition in Hp as (r & Hr & Hd & Hw).
    rewrite Hheap in Hd. unfold GameServer.tickRoom in Hd.
    pose proof (@getPlayersInWorldState_NoDup s "hawkins-1" room "normal"
                  HI Hin) as Hn.
    pose proof (@getPlayersInWorldState_NoDup s "hawkins-1" room "upsideDown"
                  HI Hin) as Hu.
    set (normal := Room.getPlayersInWorldState _ "normal" room) in *.
    set (upside := Room.getPlayersInWorldState _ "upsideDown" room) in *.
    pose proof (broadcastUpdates_heap (GameServer.heap s) normal) as E1.
    destruct (collectUpdates_spec (GameServer.heap s) Hn) as (_ & Hin1 & Hout1).
    rewrite <- E1 in Hin1, Hout1.
    destruct (GameServer.broadcastUpdates (GameServer.heap s) normal)
      as [h1 out1]. simpl in *.
    pose proof (broadcastUpdates_heap h1 upside) as E2.
    destruct (collectUpdates_spec h1 Hu) as (_ & Hin2 & Hout2).
    rewrite <- E2 in Hin2, Hout2.
    destruct (GameServer.broadcastUpdates h1 upside) as [h2 out2].
    simpl in *.
    assert (Hmem : forall ws' q, deref (GameServer.heap s) r = Some q ->
               Player.worldState q = ws' ->
               In r (Room.getPlayersInWorldState (GameServer.heap s) ws' room)).
    { intros ws' q Hq Hw'. unfold Room.getPlayersInWorldState.
      apply filter_In. split; auto. rewrite Hq. now apply String.eqb_eq. }
    assert (Hnot : forall ws' q, deref (GameServer.heap s) r = Some q ->
               Player.worldState q <> ws' ->
               ~ In r (Room.getPlayersInWorldState (GameServer.heap s) ws' room)).
    { intros ws' q Hq Hw' Hr'. unfold Room.getPlayersInWorldState in Hr'.
      apply filter_In in Hr' as [_ Hr']. rewrite Hq in Hr'.
      apply String.eqb_eq in Hr'. contradiction. }
    destruct (deref (GameServer.heap s) r) as [q|] eqn:Hq.
    - destruct (clearDirty_facts q) as (Hf & Hwq & _).
      destruct (string_dec (Player.worldState q) "normal") as [Hqn|Hqn].
      + assert (Hd1 : deref h1 r = Some (clearDirty q)).
        { rewrite Hin1 by (eapply Hmem; eauto). now rewrite Hq. }
        rewrite Hout2 in Hd.
        * congruence.
        * subst upside. intros Hr'.
          assert (Hr2 : In r (Room.getPlayersInWorldState
                                (GameServer.heap s) "upsideDown" room))
            by exact Hr'.
          revert Hr2. eapply Hnot; eauto. rewrite Hqn. discriminate.
      + assert (Hd1 : deref h1 r = Some q).
        { rewrite Hout1 by (eapply Hnot; eauto). exact Hq. }
        destruct (string_dec (Player.worldState q) "upsideDown") as [Hqu|Hqu].
        * rewrite Hin2 in Hd by (eapply Hmem; eauto).
          rewrite Hd1 in Hd. simpl in Hd. congruence.
        * rewrite Hout2 in Hd by (eapply Hnot; eauto).
          assert (p = q) by congruence. subst p.
          destruct Hws; congruence.
    - assert (Hd1 : deref h1 r = None).
      { destruct (In_dec Nat.eq_dec r normal) as [Hi|Hi].
        - rewrite (Hin1 _ Hi), Hq. reflexivity.
        - now rewrite (Hout1 _ Hi). }
      destruct (In_dec Nat.eq_dec r upside) as [Hi|Hi].
      + rewrite (Hin2 _ Hi), Hd1 in Hd. discriminate.
      + rewrite (Hout2 _ Hi), Hd1 in Hd. discriminate. }
  unfold GameServer.tick. rewrite Hrooms1. simpl.
  unfold GameServer.tickRoom.
  destruct (@broadcastUpdates_silent (GameServer.heap s1)
              (Room.getPlayersInWorldState (GameServer.heap s1) "normal" room))
    as [Eo1 Eh1].
  { intros p Hp. apply (Hclean "normal"); auto. }
  destruct (GameServer.broadcastUpdates (GameServer.heap s1) _) as [h1 o1].
  simpl in Eo1, Eh1. subst h1 o1.
  destruct (@broadcastUpdates_silent (GameServer.heap s1)
              (Room.getPlayersInWorldState (GameServer.heap s1) "upsideDown"
                 room)) as [Eo2 Eh2].
  { intros p Hp. apply (Hclean "upsideDown"); auto. }
  destruct (GameServer.broadcastUpdates (GameServer.heap s1) _) as [h2 o2].
  simpl in Eo2, Eh2. subst h2 o2. simpl.
  now destruct s1.
Qed.

Lemma second_tick_is_silent_witness :
  step (fst (step sameWorld Tick)) Tick = (fst (step sameWorld Tick), []).
Proof.
  apply second_tick_is_silent.
  apply reachable_run; [apply reachable_calm|]. repeat constructor.
Defined.



(** * World states *)

Lemma Forall_modify (P : Player.t -> Prop) h r f :
  Forall P h ->
  (forall p, deref h r = Some p -> P p -> P (f p)) ->
  Forall P (modify r f h).
Proof.
  intros Hh Hf. apply Forall_deref. intros r' p' Hp'.
  destruct (Nat.eq_dec r r') as [<-|Hne].
  - destruct (@deref_lt_Some h r) as [p Hp].
    { rewrite <- (length_modify h r f). eapply deref_Some_lt, Hp'. }
    rewrite (deref_modify_eq _ _ f Hp) in Hp'. injection Hp' as <-.
    apply Hf; auto. eapply Forall_deref in Hh; eauto.
  - rewrite deref_modify_ne in Hp' by auto.
    eapply Forall_deref in Hh; eauto.
Qed.

Lemma collectUpdates_validWorld (ps : list ref) h :
  Forall validWorld h -> Forall validWorld (fst (GameServer.collectUpdates h ps)).
Proof.
  revert h. induction ps as [|r ps IH]; intros h Hh; simpl; auto.
  destruct (deref h r) as [p|]; auto.
  destruct (Player.needsBroadcast p); auto.
  specialize (IH (modify r (Player.setNeedsBroadcast false) h)).
  destruct (GameServer.collectUpdates _ ps) as [h' us]. simpl in *.
  apply IH. apply Forall_modify; auto.
Qed.

Lemma tickRoom_validWorld h room :
  Forall validWorld h -> Forall validWorld (fst (GameServer.tickRoom h room)).
Proof.
  intros Hh. unfold GameServer.tickRoom.
  pose proof (broadcastUpdates_heap h
                (Room.getPlayersInWorldState h "normal" room)) as E1.
  pose proof (collectUpdates_validWorld
                (Room.getPlayersInWorldState h "normal" room) Hh) as H1.
  rewrite <- E1 in H1.
  destruct (GameServer.broadcastUpdates h _) as [h1 o1]. simpl in *.
  pose proof (broadcastUpdates_heap h1
                (Room.getPlayersInWorldState h "upsideDown" room)) as E2.
  pose proof (collectUpdates_validWorld
                (Room.getPlayersInWorldState h "upsideDown" room) H1) as H2.
  rewrite <- E2 in H2.
  now destruct (GameServer.broadcastUpdates h1 _) as [h2 o2].
Qed.

Lemma tick_validWorld (rs : JSMap.t Room.t) h out :
  Forall validWorld h ->
  Forall validWorld
    (fst (fold_left
            (fun (acc : list Player.t * list Output) (entry : string * Room.t) =>
               let '(h', out') := GameServer.tickRoom (fst acc) (snd entry) in
               (h', snd acc ++ out'))
            rs (h, out))).
Proof.
  revert h out. induction rs as [|[roomId room] rs IH]; intros h out Hh;
    simpl; auto.
  pose proof (tickRoom_validWorld room Hh) as H1.
  destruct (GameServer.tickRoom h room) as [h' out']. simpl in *.
  now apply IH.
Qed.

Lemma step_validWorld s i :
  Forall validWorld (GameServer.heap s) ->
  Forall validWorld (GameServer.heap (fst (step s i))).
Proof.
  intros Hh. destruct i as [sid|sid m|]; simpl; auto.
  - destruct m; simpl.
    + unfold GameServer.handlePlayerJoin.
      repeat (break_match; simpl); auto;
        (apply Forall_app; split; [exact Hh|];
         apply Forall_cons; [reflexivity|apply Forall_nil]).
    + unfold GameServer.handleCharacterSelect.
      repeat (break_match; simpl); auto; apply Forall_modify; auto.
    + unfold GameServer.handlePlayerReady.
      repeat (break_match; simpl); auto.
    + unfold GameServer.handlePlayerMove.
      destruct (GameServer.getPlayer s sid) as [[r p]|] eqn:Hp; auto.
      apply getPlayer_deref in Hp as [_ Hd].
      match goal with |- context [if ?c then _ else _] => destruct c end; auto.
      simpl. apply Forall_modify; auto.
      intros q Hq Hv. assert (q = p) by congruence. subst q.
      destruct (m_position data), (m_rotation data), (m_animation data) as [a|];
        try destruct (truthy a); exact Hv.
    + unfold GameServer.handleWorldChange.
      destruct (GameServer.getPlayer s sid) as [[r p]|]; auto.
      destruct (GameServer.getRoomId s sid); auto.
      destruct (GameServer.validWorldState worldState) eqn:Hv; auto.
      simpl. destruct (Player.worldState p =? worldState); auto.
      assert (Forall validWorld
                (modify r (Player.setWorldState worldState) (GameServer.heap s))).
      { apply Forall_modify; auto. }
      destruct (JSMap.get _ (GameServer.rooms s)); auto.
    + unfold GameServer.handleAnimationChange.
      repeat (break_match; simpl); auto; apply Forall_modify; auto.
    + unfold GameServer.handleChat.
      repeat (break_match; simpl); auto.
    + rewrite handleDisconnect_heap. exact Hh.
  - unfold GameServer.tick.
    pose proof (@tick_validWorld (GameServer.rooms s) (GameServer.heap s) []
                  Hh) as H.
    now destruct (fold_left _ _ _).
Qed.

Lemma reachable_validWorld s :
  reachable s -> Forall validWorld (GameServer.heap s).
Proof.
  induction 1 as [|s i Hs IH Hwf].
  - constructor.
  - now apply step_validWorld.
Qed.

Lemma modify_modify h r f g :
  modify r f (modify r g h) = modify r (fun p => f (g p)) h.
Proof.
  revert r. induction h as [|q h IH]; intros [|r]; simpl; auto.
  now rewrite IH.
Qed.

Lemma modify_same h r f p :
  deref h r = Some p -> f p = p -> modify r f h = h.
Proof.
  unfold deref. revert r. induction h as [|q h IH]; intros [|r]; simpl;
    try discriminate.
  - intros [= ->] ->. reflexivity.
  - intros Hr Hf. f_equal. now apply IH.
Qed.

(** X12.  There and back: in a reachable state every player is in one of
    the two world states, and a world change of a registered session
    followed by a change back to the world state it came from restores
    the server state exactly, whatever the first target was. *)
Theorem world_change_and_back
        (s : GameServer.t) (socketId w : string) (r : ref) (player : Player.t) :
  reachable s ->
  GameServer.getPlayer s socketId = Some (r, player) ->
  (Player.worldState player = "normal" \/
   Player.worldState player = "upsideDown")
  /\
  fst (GameServer.handleWorldChange
         (fst (GameServer.handleWorldChange s socketId w))
         socketId (Player.worldState player))
  = s.
Proof.
  intros Hs Hp.
  pose proof (getPlayer_deref _ _ Hp) as [Hr Hd].
  assert (Hv : validWorld player).
  { pose proof (reachable_validWorld Hs) as H.
    eapply Forall_deref in H; eauto. }
  unfold validWorld, GameServer.validWorldState in Hv.
  split.
  { apply orb_true_iff in Hv. rewrite !String.eqb_eq in Hv. exact Hv. }
  assert (Hnoop : GameServer.handleWorldChange s socketId
                    (Player.worldState player) = (s, [])).
  { unfold GameServer.handleWorldChange. rewrite Hp.
    destruct (GameServer.getRoomId s socketId); auto.
    unfold GameServer.validWorldState. rewrite Hv. simpl.
    now rewrite String.eqb_refl. }
  set (s1 := GameServer.setHeap
               (modify r (Player.setWorldState w) (GameServer.heap s)) s).
  assert (Hinner :
            fst (GameServer.handleWorldChange s socketId w) = s \/
            (fst (GameServer.handleWorldChange s socketId w) = s1 /\
             (exists roomId, GameServer.getRoomId s socketId = Some roomId) /\
             (Player.worldState player =? w) = false)).
  { unfold GameServer.handleWorldChange. rewrite Hp.
    destruct (GameServer.getRoomId s socketId) as [roomId|] eqn:Hrid; auto.
    destruct (GameServer.validWorldState w) eqn:Hw; auto.
    cbn [negb].
    destruct (Player.worldState player =? w) eqn:Hsame; auto.
    right. split; [|split; eauto].
    destruct (JSMap.get roomId (GameServer.rooms s)); reflexivity. }
  destruct Hinner as [->|(-> & [roomId Hrid] & Hsame)]; [now rewrite Hnoop|].
  assert (Hp1 : GameServer.getPlayer s1 socketId
                = Some (r, Player.setWorldState w player)).
  { unfold GameServer.getPlayer, s1. simpl.
    now rewrite Hr, (deref_modify_eq _ _ _ Hd). }
  unfold GameServer.handleWorldChange. rewrite Hp1.
  change (GameServer.getRoomId s1 socketId)
    with (GameServer.getRoomId s socketId).
  rewrite Hrid. unfold GameServer.validWorldState. rewrite Hv.
  cbn [negb Player.worldState Player.setWorldState].
  rewrite String.eqb_sym, Hsame.
  assert (Hback : GameServer.setHeap
                    (modify r (Player.setWorldState (Player.worldState player))
                            (GameServer.heap s1)) s1 = s).
  { unfold s1. simpl. rewrite modify_modify.
    rewrite (modify_same _ _ _ Hd).
    - now destruct s.
    - now destruct player. }
  destruct (JSMap.get roomId (GameServer.rooms s1)); exact Hback.
Qed.

Lemma world_change_and_back_witness :
  fst (GameServer.handleWorldChange
         (fst (GameServer.handleWorldChange bothReady "B" "normal"))
         "B" "upsideDown")
  = bothReady.
Proof.
  destruct (GameServer.getPlayer bothReady "B") as [[r p]|] eqn:E;
    [|vm_compute in E; discriminate E].
  destruct (@world_change_and_back bothReady "B" "normal" r p
              reachable_bothReady E) as [_ H].
  vm_compute in E. injection E as <- <-. exact H.
Defined.

(** * Leaving *)

Lemma AVAILABLE_truthy c : In c AVAILABLE_CHARACTERS -> truthy c = true.
Proof.
  unfold AVAILABLE_CHARACTERS. simpl.
  intros H. repeat (destruct H as [<-|H]; [reflexivity|]). destruct H.
Qed.

Lemma removePlayer_shape playerId room :
  fst (Room.removePlayer playerId room)
  = Room.setPlayers (JSMap.delete playerId (Room.players room))
                    (fst (Room.releaseCharacter playerId room)) /\
  snd (Room.removePlayer playerId room)
  = Room.getPlayerCharacter playerId room.
Proof.
  unfold Room.removePlayer, Room.getPlayerCharacter, Room.releaseCharacter.
  destruct (Room.holder playerId (Room.selectedCharacters room)); simpl;
    auto.
Qed.



(** * Arriving *)




(** * Becoming ready *)

Lemma In_set_other (V : Type) (m : JSMap.t V) k v k' v' :
  k' <> k -> In (k', v') m -> In (k', v') (JSMap.set k v m).
Proof.
  intros Hne. induction m as [|[k0 v0] m IH]; simpl; [tauto|].
  destruct (k =? k0) eqn:E.
  - apply String.eqb_eq in E. subst k0.
    intros [[= <- <-]|H]; [congruence|now right].
  - intros [H|H]; [now left|right; auto].
Qed.

(** X15.  [player:ready] is idempotent: a second one leaves the state the
    first one produced as it is, and is answered like the first, so the
    room hears [player:spawned] again. *)
Theorem ready_is_idempotent (s : GameServer.t) (socketId : string) :
  step (fst (step s (Receive socketId player_ready)))
       (Receive socketId player_ready)
  = step s (Receive socketId player_ready).
Proof.
  cbn [step]. unfold GameServer.handlePlayerReady at 2 3.
  destruct (GameServer.getPlayer s socketId) as [[r player]|] eqn:Hp;
    [|cbn [fst]; unfold GameServer.handlePlayerReady; now rewrite Hp].
  destruct (GameServer.getRoomId s socketId) as [roomId|] eqn:Hrid;
    [|cbn [fst]; unfold GameServer.handlePlayerReady; now rewrite Hp, Hrid].
  destruct (JSMap.get roomId (GameServer.rooms s)) as [room|] eqn:Hroom;
    [|cbn [fst]; unfold GameServer.handlePlayerReady;
      now rewrite Hp, Hrid, Hroom].
  destruct (negb (truthy_opt (Player.characterId player))) eqn:Hc;
    [cbn [fst]; unfold GameServer.handlePlayerReady;
     now rewrite Hp, Hrid, Hroom, Hc|].
  cbn [fst]. unfold GameServer.handlePlayerReady.
  set (room' := Room.addPlayer r player room).
  change (GameServer.getPlayer
            (GameServer.setRooms
               (JSMap.set roomId room' (GameServer.rooms s)) s) socketId)
    with (GameServer.getPlayer s socketId).
  change (GameServer.getRoomId
            (GameServer.setRooms
               (JSMap.set roomId room' (GameServer.rooms s)) s) socketId)
    with (GameServer.getRoomId s socketId).
  rewrite Hp, Hrid. cbn [GameServer.rooms GameServer.setRooms].
  rewrite get_set_eq, Hc.
  assert (Hsame : Room.addPlayer r player room' = room').
  { unfold room', Room.addPlayer. cbn [Room.players Room.setPlayers].
    rewrite set_same by apply get_set_eq. reflexivity. }
  rewrite Hsame.
  rewrite (set_same (JSMap.set roomId room' (GameServer.rooms s)) roomId)
    by apply get_set_eq.
  reflexivity.
Qed.

(** X16.  The roster of [player:joined].  When a session of a reachable
    state that holds a character becomes ready, it is sent the
    serialisations of exactly the sessions that were ready before it, are
    in its world state and are not itself; the room, but not the caller,
    is sent its own serialisation as [player:spawned]. *)
Theorem joined_roster_is_the_partition
        (s : GameServer.t) (socketId : string) (r : ref) (player : Player.t)
        (roomId : string) :
  reachable s ->
  GameServer.getPlayer s socketId = Some (r, player) ->
  GameServer.getRoomId s socketId = Some roomId ->
  truthy_opt (Player.characterId player) = true ->
  exists room roster,
    JSMap.get roomId (GameServer.rooms s) = Some room /\
    snd (step s (Receive socketId player_ready))
    = [Emit (Socket socketId)
         (player_joined socketId (Player.firebaseUid player)
            (Player.serialize player) roster);
       Emit (Except socketId roomId)
         (player_spawned (Player.serialize player))] /\
    (forall ser,
       In ser roster <->
       exists q rq,
         In (Player.id q, rq) (Room.players room) /\
         deref (GameServer.heap s) rq = Some q /\
         Player.id q <> socketId /\
         Player.worldState q = Player.worldState player /\
         ser = Player.serialize q) /\
    (forall ser, In ser roster ->
       Player.s_id ser <> socketId /\
       Player.s_worldState ser = Player.worldState player).
Proof.
  intros Hs Hp Hrid Hc. pose proof (reachable_Inv Hs) as HI.
  destruct (inv_room_of HI _ Hrid) as [room Hroom].
  destruct (getPlayer_deref _ _ Hp) as [Hr Hd].
  destruct (inv_ids HI _ Hr) as (p0 & Hd0 & Hid).
  assert (p0 = player) by congruence. subst p0.
  exists room. eexists. split; [exact Hroom|].
  split.
  { cbn [step]. unfold GameServer.handlePlayerReady.
    rewrite Hp, Hrid, Hroom, Hc. reflexivity. }
  assert (Hiff : forall ser,
             In ser
                (map Player.serialize
                   (filter (fun p => negb (Player.id p =? socketId))
                      (objects (GameServer.heap s)
                         (Room.getPlayersInWorldState (GameServer.heap s)
                            (Player.worldState player)
                            (Room.addPlayer r player room))))) <->
             exists q rq,
               In (Player.id q, rq) (Room.players room) /\
               deref (GameServer.heap s) rq = Some q /\
               Player.id q <> socketId /\
               Player.worldState q = Player.worldState player /\
               ser = Player.serialize q).
  { intros ser. rewrite in_map_iff. split.
    - intros (q & <- & Hq). apply filter_In in Hq as [Hq Hne].
      apply negb_true_iff, String.eqb_neq in Hne.
      change (In q (partition s (Room.addPlayer r player room)
                      (Player.worldState player))) in Hq.
      apply In_partition in Hq as (rq & Hrq & Hdq & Hw).
      apply values_In in Hrq as [k Hk].
      unfold Room.addPlayer in Hk. cbn [Room.players Room.setPlayers] in Hk.
      apply In_set in Hk as [[-> ->]|Hk]; [congruence|].
      destruct (inv_ready_ids HI _ _ _ _ (get_In _ _ Hroom) Hk)
        as (q' & Hq' & Hk').
      assert (q' = q) by congruence. subst q'. subst k.
      exists q, rq. auto.
    - intros (q & rq & Hin & Hdq & Hne & Hw & ->).
      exists q. split; [reflexivity|].
      apply filter_In. split.
      + change (In q (partition s (Room.addPlayer r player room)
                        (Player.worldState player))).
        apply In_partition. exists rq. split; [|auto].
        apply (In_values _ (Player.id q)).
        unfold Room.addPlayer. cbn [Room.players Room.setPlayers].
        apply In_set_other; congruence.
      + now apply negb_true_iff, String.eqb_neq. }
  split; [exact Hiff|].
  intros ser Hser. apply Hiff in Hser as (q & rq & _ & _ & Hne & Hw & ->).
  auto.
Qed.

Lemma joined_roster_is_the_partition_witness :
  exists room roster,
    JSMap.get "hawkins-1" (GameServer.rooms lobby) = Some room /\
    snd (step lobby (Receive "A" player_ready))
    = [Emit (Socket "A")
         (player_joined "A" None
            (Player.serialize
               (Player.setCharacter "eleven"
                  (Player.create "A" "Max"
                     (GameServer.getSpawnPosition half half)))) roster);
       Emit (Except "A" "hawkins-1")
         (player_spawned
            (Player.serialize
               (Player.setCharacter "eleven"
                  (Player.create "A" "Max"
                     (GameServer.getSpawnPosition half half)))))].
Proof.
  destruct (@joined_roster_is_the_partition lobby "A" 1%nat
              (Player.setCharacter "eleven"
                 (Player.create "A" "Max"
                    (GameServer.getSpawnPosition half half)))
              "hawkins-1" reachable_lobby eq_refl eq_refl eq_refl)
    as (room & roster & Hroom & Hout & _).
  exists room, roster. split; [exact Hroom|exact Hout].
Defined.

(** * Characters do not leak *)

Lemma release_keeps_entry playerId room c q :
  NoDup (JSMap.keys (Room.selectedCharacters room)) ->
  q <> playerId ->
  In (c, q) (Room.selectedCharacters room) ->
  In (c, q) (Room.selectedCharacters (fst (Room.releaseCharacter playerId room))).
Proof.
  intros Hnd Hne Hin. unfold Room.releaseCharacter.
  destruct (Room.holder playerId (Room.selectedCharacters room))
    as [c0|] eqn:E; simpl; auto.
  apply In_delete. split; auto. intros ->.
  apply holder_In in E. apply In_get in E, Hin; auto. congruence.
Qed.

Lemma release_holders_incl playerId room q :
  In q (holders (fst (Room.releaseCharacter playerId room))) ->
  In q (holders room).
Proof.
  unfold holders. intros H. apply values_In in H as [c Hc].
  apply release_entries in Hc. eapply In_values, Hc.
Qed.

Lemma registered_getPlayer s socketId :
  Inv s ->
  JSMap.get socketId (GameServer.players s) <> None ->
  exists r p, GameServer.getPlayer s socketId = Some (r, p) /\
              Player.id p = socketId.
Proof.
  intros HI Hreg. unfold GameServer.getPlayer.
  destruct (JSMap.get socketId (GameServer.players s)) as [r|] eqn:E;
    [|congruence].
  destruct (inv_ids HI _ E) as (p & Hd & Hid). rewrite Hd. eauto.
Qed.

Lemma noLeak_step s i : reachable s -> noLeak s -> noLeak (fst (step s i)).
Proof.
  intros Hs HN. pose proof (reachable_Inv Hs) as HI.
  destruct (reachable_single_room Hs) as [room0 Hrooms].
  assert (Hri : roomInv room0).
  { apply (inv_rooms HI "hawkins-1"). rewrite Hrooms. now left. }
  assert (HN0 : forall q, In q (holders room0) ->
                  JSMap.get q (GameServer.players s) <> None /\
                  GameServer.getRoomId s q = Some "hawkins-1").
  { intros q Hq. apply (HN "hawkins-1" room0); auto.
    rewrite Hrooms. now left. }
  assert (Hsame : forall s',
             GameServer.rooms s' = GameServer.rooms s ->
             GameServer.players s' = GameServer.players s ->
             GameServer.socketToRoom s' = GameServer.socketToRoom s ->
             noLeak s').
  { intros s' H1 H2 H3 roomId room q. unfold GameServer.getRoomId.
    rewrite H1, H2, H3. apply HN. }
  destruct i as [sid|sid m|].
  - apply Hsame; reflexivity.
  - destruct m as [data rx rz|c| | | | | |].
    + (* join *)
      cbn [step]. unfold GameServer.handlePlayerJoin.
      destruct (JSMap.get _ (GameServer.rooms s)) as [room|] eqn:Hroom;
        [|exact HN].
      destruct (Room.isFull room); [exact HN|].
      cbn [fst alloc].
      rewrite Hrooms in Hroom. simpl in Hroom.
      destruct (_ =? "hawkins-1") eqn:Hid in Hroom; [|discriminate].
      apply String.eqb_eq in Hid. rewrite Hid.
      intros roomId room' q Hin Hq. cbn [GameServer.rooms] in Hin.
      rewrite Hrooms in Hin. destruct Hin as [[= <- <-]|[]].
      destruct (HN0 q Hq) as [Hreg Hrid].
      unfold GameServer.getRoomId in *.
      cbn [GameServer.players GameServer.socketToRoom].
      destruct (String.eqb_spec sid q) as [->|Hne].
      * rewrite !get_set_eq. split; [discriminate|reflexivity].
      * rewrite !get_set_ne by exact Hne. auto.
    + (* select *)
      cbn [step]. unfold GameServer.handleCharacterSelect.
      destruct (GameServer.getPlayer s sid) as [[r player]|] eqn:Hp;
        [|exact HN].
      destruct (GameServer.getRoomId s sid) as [roomId0|] eqn:Hrid;
        [|exact HN].
      destruct (JSMap.get roomId0 (GameServer.rooms s)) as [room|] eqn:Hroom;
        [|exact HN].
      destruct (Room.selectCharacter sid c room) as [room1 [|e]] eqn:Hsel;
        [|exact HN].
      cbn [fst].
      rewrite Hrooms in Hroom. simpl in Hroom.
      destruct (roomId0 =? "hawkins-1") eqn:Hid in Hroom; [|discriminate].
      apply String.eqb_eq in Hid. subst roomId0. injection Hroom as <-.
      intros roomId room' q Hin Hq.
      cbn [GameServer.rooms GameServer.setHeap GameServer.setRooms] in Hin.
      rewrite Hrooms in Hin. simpl in Hin. destruct Hin as [[= <- <-]|[]].
      change (JSMap.get q (GameServer.players s) <> None /\
              GameServer.getRoomId s q = Some "hawkins-1").
      rewrite (@select_holders sid c room0 room1 Hsel) in Hq.
      apply in_app_or in Hq as [Hq|[<-|[]]].
      * apply HN0. eapply release_holders_incl, Hq.
      * split; [|exact Hrid].
        apply getPlayer_deref in Hp as [Hp _]. congruence.
    + (* ready *)
      cbn [step]. unfold GameServer.handlePlayerReady.
      destruct (GameServer.getPlayer s sid) as [[r player]|] eqn:Hp;
        [|exact HN].
      destruct (GameServer.getRoomId s sid) as [roomId0|] eqn:Hrid;
        [|exact HN].
      destruct (JSMap.get roomId0 (GameServer.rooms s)) as [room|] eqn:Hroom;
        [|exact HN].
      destruct (negb _); [exact HN|].
      cbn [fst].
      rewrite Hrooms in Hroom. simpl in Hroom.
      destruct (roomId0 =? "hawkins-1") eqn:Hid in Hroom; [|discriminate].
      apply String.eqb_eq in Hid. subst roomId0. injection Hroom as <-.
      intros roomId room' q Hin Hq.
      cbn [GameServer.rooms GameServer.setRooms] in Hin.
      rewrite Hrooms in Hin. simpl in Hin. destruct Hin as [[= <- <-]|[]].
      apply (HN0 q Hq).
    + (* move *)
      apply Hsame; cbn [step]; unfold GameServer.handlePlayerMove;
        repeat (break_match; simpl); reflexivity.
    + apply Hsame; cbn [step]; unfold GameServer.handleWorldChange;
        repeat (break_match; simpl); reflexivity.
    + apply Hsame; cbn [step]; unfold GameServer.handleAnimationChange;
        repeat (break_match; simpl); reflexivity.
    + apply Hsame; cbn [step]; unfold GameServer.handleChat;
        repeat (break_match; simpl); reflexivity.
    + (* disconnect *)
      cbn [step].
      set (s0 := GameServer.setIo (IO.leaveAll sid (GameServer.io s)) s).
      intros roomId room' q Hin Hq.
      assert (Hq0 : q <> sid /\ In q (holders room0) /\ roomId = "hawkins-1").
      { revert Hin. unfold GameServer.handleDisconnect.
        change (GameServer.getPlayer s0 sid) with (GameServer.getPlayer s sid).
        change (GameServer.getRoomId s0 sid) with (GameServer.getRoomId s sid).
        change (GameServer.rooms s0) with (GameServer.rooms s).
        assert (Hun : In (roomId, room') (GameServer.rooms s) ->
                      GameServer.getPlayer s sid = None \/
                      GameServer.getRoomId s sid = None ->
                      q <> sid /\ In q (holders room0) /\
                      roomId = "hawkins-1").
        { intros Hin Hnone. rewrite Hrooms in Hin.
          destruct Hin as [[= <- <-]|[]].
          destruct (HN0 q Hq) as [Hreg Hrid].
          split; [|auto]. intros ->.
          destruct (@registered_getPlayer s sid HI Hreg) as (r & p & Hp & _).
          destruct Hnone; congruence. }
        destruct (GameServer.getPlayer s sid) as [[r player]|] eqn:Hp;
          [|intros Hin; apply Hun; auto].
        destruct (GameServer.getRoomId s sid) as [roomId0|] eqn:Hrid;
          [|intros Hin; apply Hun; auto].
        destruct (inv_room_of HI _ Hrid) as [room Hroom]. rewrite Hroom.
        rewrite Hrooms in Hroom. simpl in Hroom.
        destruct (roomId0 =? "hawkins-1") eqn:Hid in Hroom; [|discriminate].
        apply String.eqb_eq in Hid. subst roomId0. injection Hroom as <-.
        destruct (removePlayer_shape sid room0) as [Hfst _].
        destruct (Room.removePlayer sid room0) as [room1 rel].
        cbn [fst] in Hfst. subst room1.
        intros Hin.
        assert (Hin' : In (roomId, room')
                          (JSMap.set "hawkins-1"
                             (Room.setPlayers
                                (JSMap.delete sid (Room.players room0))
                                (fst (Room.releaseCharacter sid room0)))
                             (GameServer.rooms s))).
        { revert Hin. destruct (Player.firebaseUid player) as [u|];
            [destruct (truthy u)|]; exact (fun H => H). }
        rewrite Hrooms in Hin'. simpl in Hin'.
        destruct Hin' as [[= <- <-]|[]].
        change (In q (holders (fst (Room.releaseCharacter sid room0)))) in Hq.
        split; [|split; [eapply release_holders_incl, Hq|reflexivity]].
        intros ->. revert Hq. apply release_drops_holder, Hri. }
      destruct Hq0 as (Hne & Hq0 & ->).
      destruct (HN0 q Hq0) as [Hreg Hrid].
      assert (Hfields :
                JSMap.get q (GameServer.players
                               (fst (GameServer.handleDisconnect s0 sid)))
                = JSMap.get q (GameServer.players s) /\
                JSMap.get q (GameServer.socketToRoom
                               (fst (GameServer.handleDisconnect s0 sid)))
                = JSMap.get q (GameServer.socketToRoom s)).
      { unfold GameServer.handleDisconnect.
        repeat (break_match; simpl);
          rewrite !get_delete_ne by congruence; auto. }
      destruct Hfields as [H1 H2].
      unfold GameServer.getRoomId in *. rewrite H1, H2. auto.
  - apply Hsame; cbn [step]; unfold GameServer.tick;
      now destruct (fold_left _ _ _).
Qed.

Lemma reachable_noLeak s : reachable s -> noLeak s.
Proof.
  induction 1 as [|s i Hs IH Hwf].
  - intros roomId room q [[= <- <-]|[]] [].
  - now apply noLeak_step.
Qed.

Lemma handleDisconnect_socketToRoom s socketId :
  GameServer.socketToRoom (fst (GameServer.handleDisconnect s socketId))
  = JSMap.delete socketId (GameServer.socketToRoom s).
Proof.
  unfold GameServer.handleDisconnect.
  repeat (break_match; simpl); reflexivity.
Qed.

Lemma handleDisconnect_rooms s socketId :
  GameServer.rooms (fst (GameServer.handleDisconnect s socketId))
  = match GameServer.getPlayer s socketId, GameServer.getRoomId s socketId with
    | Some _, Some roomId =>
        match JSMap.get roomId (GameServer.rooms s) with
        | Some room =>
            JSMap.set roomId (fst (Room.removePlayer socketId room))
                      (GameServer.rooms s)
        | None => GameServer.rooms s
        end
    | _, _ => GameServer.rooms s
    end.
Proof.
  unfold GameServer.handleDisconnect.
  destruct (GameServer.getPlayer s socketId) as [[r player]|];
    [|reflexivity].
  destruct (GameServer.getRoomId s socketId) as [roomId|]; [|reflexivity].
  destruct (JSMap.get roomId (GameServer.rooms s)) as [room|].
  - destruct (Room.removePlayer socketId room) as [room' rel].
    destruct (Player.firebaseUid player) as [u|]; [destruct (truthy u)|];
      reflexivity.
  - destruct (Player.firebaseUid player) as [u|]; [destruct (truthy u)|];
      reflexivity.
Qed.

Lemma select_get playerId c room room' :
  Room.selectCharacter playerId c room = (room', Room.Success) ->
  JSMap.get c (Room.selectedCharacters room') = Some playerId.
Proof.
  unfold Room.selectCharacter.
  destruct (negb _); [discriminate|].
  destruct (JSMap.has _ _); [discriminate|].
  intros [= <-]. simpl. apply get_set_eq.
Qed.

Lemma agrees_setHeap s h :
  Inv s -> characterAgrees s -> sameShape (GameServer.heap s) h ->
  characterAgrees (GameServer.setHeap h s).
Proof.
  intros HI HA [Hlen Hsame] socketId r p' roomId room c Hp' Hc Hrid Hroom.
  unfold GameServer.getPlayer in Hp'. simpl in Hp'.
  destruct (JSMap.get socketId (GameServer.players s)) as [r0|] eqn:Hr0;
    [|discriminate].
  destruct (inv_ids HI _ Hr0) as (p & Hp & Hid).
  destruct (Hsame _ _ Hp) as (p'' & Hp'' & _ & Hch & _).
  rewrite Hp'' in Hp'. injection Hp' as <- <-.
  apply (HA socketId r0 p roomId room); auto.
  - unfold GameServer.getPlayer. now rewrite Hr0, Hp.
  - congruence.
Qed.

Lemma agrees_step s i :
  reachable s -> characterAgrees s -> characterAgrees (fst (step s i)).
Proof.
  intros Hs HA. pose proof (reachable_Inv Hs) as HI.
  destruct (reachable_single_room Hs) as [room0 Hrooms].
  assert (Hri : roomInv room0).
  { apply (inv_rooms HI "hawkins-1"). rewrite Hrooms. now left. }
  assert (Hone : forall roomId room,
             JSMap.get roomId (GameServer.rooms s) = Some room ->
             roomId = "hawkins-1" /\ room = room0).
  { intros roomId room. rewrite Hrooms. simpl.
    destruct (roomId =? "hawkins-1") eqn:E; [|discriminate].
    apply String.eqb_eq in E. now intros [= <-]. }
  destruct i as [sid|sid m|].
  - exact HA.
  - destruct m as [data rx rz|c0| | | | | |].
    + (* join *)
      cbn [step]. unfold GameServer.handlePlayerJoin.
      destruct (JSMap.get _ (GameServer.rooms s)) as [room|] eqn:Hroom;
        [|exact HA].
      destruct (Room.isFull room); [exact HA|].
      cbn [fst alloc].
      intros q r p roomId room' c Hp Hc Hrid Hroom'.
      unfold GameServer.getPlayer, GameServer.getRoomId in Hp, Hrid.
      cbn [GameServer.players GameServer.socketToRoom GameServer.heap
           GameServer.rooms] in Hp, Hrid, Hroom'.
      destruct (String.eqb_spec sid q) as [->|Hne].
      * rewrite get_set_eq, deref_alloc_new in Hp.
        injection Hp as <- <-. discriminate Hc.
      * rewrite get_set_ne in Hp, Hrid by exact Hne.
        destruct (JSMap.get q (GameServer.players s)) as [r1|] eqn:Hr1;
          [|discriminate].
        destruct (inv_ids HI _ Hr1) as (p1 & Hd1 & _).
        rewrite (@deref_alloc _ r1 p1 _ Hd1) in Hp. injection Hp as <- <-.
        apply (HA q r1 p1 roomId room'); auto.
        unfold GameServer.getPlayer. now rewrite Hr1, Hd1.
    + (* select *)
      cbn [step]. unfold GameServer.handleCharacterSelect.
      destruct (GameServer.getPlayer s sid) as [[r0 player]|] eqn:Hp0;
        [|exact HA].
      destruct (GameServer.getRoomId s sid) as [roomId0|] eqn:Hrid0;
        [|exact HA].
      destruct (JSMap.get roomId0 (GameServer.rooms s)) as [room|] eqn:Hroom;
        [|exact HA].
      destruct (Room.selectCharacter sid c0 room) as [room1 [|e]] eqn:Hsel;
        [|exact HA].
      cbn [fst].
      destruct (Hone _ _ Hroom) as [-> ->].
      destruct (getPlayer_deref _ _ Hp0) as [Hr0 Hd0].
      intros q r p roomId room' c Hp Hc Hrid Hroom'.
      change (GameServer.getRoomId s q = Some roomId) in Hrid.
      cbn [GameServer.rooms GameServer.setHeap GameServer.setRooms] in Hroom'.
      unfold GameServer.getPlayer in Hp.
      cbn [GameServer.players GameServer.heap GameServer.setHeap
           GameServer.setRooms] in Hp.
      destruct (JSMap.get q (GameServer.players s)) as [r1|] eqn:Hr1;
        [|discriminate].
      destruct (inv_ids HI _ Hr1) as (p1 & Hd1 & Hid1).
      destruct (inv_room_of HI _ Hrid) as [room2 Hroom2].
      destruct (Hone _ _ Hroom2) as [-> ->].
      rewrite get_set_eq in Hroom'. injection Hroom' as <-.
      destruct (String.eqb_spec sid q) as [->|Hne].
      * assert (r1 = r0) by congruence. subst r1.
        rewrite (@deref_modify_eq _ r0 _ player Hd0) in Hp.
        injection Hp as <- <-.
        injection Hc as <-. eapply select_get, Hsel.
      * assert (Hr : r0 <> r1).
        { intros ->. destruct (inv_ids HI _ Hr0) as (p0 & Hdp0 & Hid0).
          congruence. }
        rewrite (@deref_modify_ne _ r0 r1 _ Hr) in Hp.
        rewrite Hd1 in Hp. injection Hp as <- <-.
        assert (Hold : JSMap.get c (Room.selectedCharacters room0) = Some q).
        { apply (HA q r1 p1 "hawkins-1" room0); auto.
          unfold GameServer.getPlayer. now rewrite Hr1, Hd1. }
        apply In_get.
        { apply (@select_roomInv sid c0 room0 room1 Hsel Hri). }
        destruct (selectCharacter_success _ _ _ Hsel) as (_ & _ & ->).
        cbn [Room.selectedCharacters Room.setSelectedCharacters].
        apply in_or_app. left.
        apply release_keeps_entry; [apply Hri|congruence|].
        now apply get_In.
    + (* ready *)
      cbn [step]. unfold GameServer.handlePlayerReady.
      destruct (GameServer.getPlayer s sid) as [[r0 player]|] eqn:Hp0;
        [|exact HA].
      destruct (GameServer.getRoomId s sid) as [roomId0|] eqn:Hrid0;
        [|exact HA].
      destruct (JSMap.get roomId0 (GameServer.rooms s)) as [room|] eqn:Hroom;
        [|exact HA].
      destruct (negb _); [exact HA|].
      cbn [fst].
      destruct (Hone _ _ Hroom) as [-> ->].
      intros q r p roomId room' c Hp Hc Hrid Hroom'.
      change (GameServer.getRoomId s q = Some roomId) in Hrid.
      change (GameServer.getPlayer s q = Some (r, p)) in Hp.
      cbn [GameServer.rooms GameServer.setRooms] in Hroom'.
      destruct (inv_room_of HI _ Hrid) as [room2 Hroom2].
      destruct (Hone _ _ Hroom2) as [-> ->].
      rewrite get_set_eq in Hroom'. injection Hroom' as <-.
      apply (HA q r p "hawkins-1" room0); auto.
    + cbn [step]. unfold GameServer.handlePlayerMove.
      destruct (GameServer.getPlayer s sid) as [[r player]|] eqn:Hp; auto.
      match goal with |- context [if ?c then _ else _] => destruct c end; auto.
      simpl. apply agrees_setHeap; auto. apply sameShape_modify.
      apply getPlayer_deref in Hp as [_ Hd].
      intros p Hp'. assert (p = player) by congruence. subst p.
      destruct (m_position data) as [pos|], (m_rotation data) as [rot|],
        (m_animation data) as [a|]; try destruct (truthy a); simpl;
        (split; [reflexivity|split; [reflexivity|]]); intros Hb;
        first [exact Hb | apply clamp_bounds].
    + cbn [step]. unfold GameServer.handleWorldChange.
      repeat (break_match; simpl); auto;
        apply agrees_setHeap; auto; apply sameShape_modify;
        intros; simpl; auto.
    + cbn [step]. unfold GameServer.handleAnimationChange.
      repeat (break_match; simpl); auto;
        apply agrees_setHeap; auto; apply sameShape_modify;
        intros; simpl; auto.
    + cbn [step]. unfold GameServer.handleChat.
      repeat (break_match; simpl); auto.
    + (* disconnect *)
      cbn [step].
      set (s0 := GameServer.setIo (IO.leaveAll sid (GameServer.io s)) s).
      intros q r p roomId room' c Hp Hc Hrid Hroom'.
      unfold GameServer.getPlayer, GameServer.getRoomId in Hp, Hrid.
      rewrite handleDisconnect_players, handleDisconnect_heap in Hp.
      rewrite handleDisconnect_socketToRoom in Hrid.
      rewrite handleDisconnect_rooms in Hroom'.
      change (GameServer.players s0) with (GameServer.players s) in Hp.
      change (GameServer.heap s0) with (GameServer.heap s) in Hp.
      change (GameServer.socketToRoom s0)
        with (GameServer.socketToRoom s) in Hrid.
      change (GameServer.getPlayer s0 sid)
        with (GameServer.getPlayer s sid) in Hroom'.
      change (GameServer.getRoomId s0 sid)
        with (GameServer.getRoomId s sid) in Hroom'.
      change (GameServer.rooms s0) with (GameServer.rooms s) in Hroom'.
      destruct (String.eqb_spec sid q) as [->|Hne];
        [now rewrite get_delete_eq in Hp|].
      rewrite get_delete_ne in Hp, Hrid by exact Hne.
      change (GameServer.getPlayer s q = Some (r, p)) in Hp.
      change (GameServer.getRoomId s q = Some roomId) in Hrid.
      destruct (inv_room_of HI _ Hrid) as [room2 Hroom2].
      destruct (Hone _ _ Hroom2) as [-> ->].
      pose proof (HA q r p "hawkins-1" room0 c Hp Hc Hrid Hroom2) as Hold.
      destruct (GameServer.getPlayer s sid) as [[r0 player]|];
        [|congruence].
      destruct (GameServer.getRoomId s sid) as [roomId0|] eqn:Hrid0;
        [|congruence].
      destruct (inv_room_of HI _ Hrid0) as [room3 Hroom3].
      rewrite Hroom3 in Hroom'.
      destruct (Hone _ _ Hroom3) as [-> ->].
      rewrite get_set_eq in Hroom'. injection Hroom' as <-.
      destruct (removePlayer_shape sid room0) as [-> _].
      cbn [Room.selectedCharacters Room.setPlayers].
      apply In_get.
      { apply release_keys, Hri. }
      apply release_keeps_entry; [apply Hri|congruence|].
      now apply get_In.
  - cbn [step]. unfold GameServer.tick.
    pose proof (@tickRooms_sameShape (GameServer.rooms s) _ _ []
                  (sameShape_refl (GameServer.heap s))) as H.
    destruct (fold_left _ _ _) as [h out]. simpl in *.
    now apply agrees_setHeap.
Qed.

Lemma reachable_agrees s : reachable s -> characterAgrees s.
Proof.
  induction 1 as [|s i Hs IH Hwf].
  - intros q r p roomId room c Hp. discriminate Hp.
  - now apply agrees_step.
Qed.

(** X17.  Characters do not leak.  In every reachable state, whoever holds
    a character of a room, and whoever is ready in it, is a registered
    session of that room, so that its disconnect will find and free the
    entry; in particular a room never has more characters taken than the
    server has sessions. *)
Theorem characters_never_leak
        (s : GameServer.t) (roomId : string) (room : Room.t) :
  reachable s ->
  In (roomId, room) (GameServer.rooms s) ->
  (forall c socketId,
     JSMap.get c (Room.selectedCharacters room) = Some socketId ->
     exists r p,
       GameServer.getPlayer s socketId = Some (r, p) /\
       Player.id p = socketId /\
       GameServer.getRoomId s socketId = Some roomId)
  /\
  (forall socketId,
     In socketId (readyIds room) ->
     exists r p,
       GameServer.getPlayer s socketId = Some (r, p) /\
       Player.id p = socketId /\
       GameServer.getRoomId s socketId = Some roomId)
  /\
  (List.length (holders room) <= JSMap.size (GameServer.players s))%nat.
Proof.
  intros Hs Hin. pose proof (reachable_Inv Hs) as HI.
  pose proof (reachable_noLeak Hs) as HN.
  pose proof (inv_rooms HI _ _ Hin) as Hri.
  assert (Hreg : forall socketId,
             In socketId (holders room) ->
             exists r p,
               GameServer.getPlayer s socketId = Some (r, p) /\
               Player.id p = socketId /\
               GameServer.getRoomId s socketId = Some roomId).
  { intros q Hq. destruct (HN _ _ _ Hin Hq) as [Hreg Hrid].
    destruct (@registered_getPlayer s q HI Hreg) as (r & p & Hp & Hid).
    eauto. }
  split; [|split].
  - intros c q Hc. apply Hreg. eapply In_values, get_In, Hc.
  - intros q Hq. apply Hreg, (ri_ready_hold Hri), Hq.
  - rewrite size_keys. apply NoDup_incl_length; [apply Hri|].
    intros q Hq. destruct (HN _ _ _ Hin Hq) as [Hget _].
    destruct (JSMap.get q (GameServer.players s)) as [r|] eqn:E;
      [|congruence].
    eapply In_keys, get_In, E.
Qed.

Lemma characters_never_leak_witness :
  exists r p,
    GameServer.getPlayer bothReady "A" = Some (r, p) /\
    Player.id p = "A" /\
    GameServer.getRoomId bothReady "A" = Some "hawkins-1".
Proof.
  assert (Hin : In ("hawkins-1", readyRoom) (GameServer.rooms bothReady))
    by (left; reflexivity).
  destruct (@characters_never_leak bothReady "hawkins-1" readyRoom
              reachable_bothReady Hin) as (Hholds & _ & _).
  apply (Hholds "eleven" "A"). reflexivity.
Defined.

(** X18.  The character a session's player object records is the one the
    arbiter of its room has given it, in every reachable state: the
    character is a valid one, the room maps it to the session, the
    session's holding is that character, and no other session of the room
    records the same character. *)
Theorem recorded_character_is_held
        (s : GameServer.t) (socketId : string) (r : ref) (player : Player.t)
        (roomId c : string) :
  reachable s ->
  GameServer.getPlayer s socketId = Some (r, player) ->
  GameServer.getRoomId s socketId = Some roomId ->
  Player.characterId player = Some c ->
  exists room,
    JSMap.get roomId (GameServer.rooms s) = Some room /\
    In c AVAILABLE_CHARACTERS /\
    JSMap.get c (Room.selectedCharacters room) = Some socketId /\
    Room.getPlayerCharacter socketId room = Some c /\
    (forall q rq pq,
       GameServer.getPlayer s q = Some (rq, pq) ->
       GameServer.getRoomId s q = Some roomId ->
       Player.characterId pq = Some c ->
       q = socketId).
Proof.
  intros Hs Hp Hrid Hc. pose proof (reachable_Inv Hs) as HI.
  pose proof (reachable_agrees Hs) as HA.
  destruct (inv_room_of HI _ Hrid) as [room Hroom].
  pose proof (inv_rooms HI _ _ (get_In _ _ Hroom)) as Hri.
  pose proof (HA _ _ _ _ _ _ Hp Hc Hrid Hroom) as Hheld.
  exists room. split; [exact Hroom|].
  split; [eapply (ri_chars Hri), In_keys, get_In, Hheld|].
  split; [exact Hheld|]. split.
  - apply holder_of_In; [apply Hri|now apply get_In].
  - intros q rq pq Hq Hridq Hcq.
    pose proof (HA _ _ _ _ _ _ Hq Hcq Hridq Hroom). congruence.
Qed.

Lemma recorded_character_is_held_witness :
  exists room,
    JSMap.get "hawkins-1" (GameServer.rooms bothReady) = Some room /\
    In "eleven" AVAILABLE_CHARACTERS /\
    JSMap.get "eleven" (Room.selectedCharacters room) = Some "A" /\
    Room.getPlayerCharacter "A" room = Some "eleven".
Proof.
  destruct (GameServer.getPlayer bothReady "A") as [[r p]|] eqn:E;
    [|vm_compute in E; discriminate E].
  assert (Hc : Player.characterId p = Some "eleven").
  { vm_compute in E. injection E as <- <-. reflexivity. }
  destruct (@recorded_character_is_held bothReady "A" r p "hawkins-1"
              "eleven" reachable_bothReady E eq_refl Hc)
    as (room & H1 & H2 & H3 & H4 & _).
  exists room. auto.
Defined.

(** * Moving *)

Lemma gt_self a eps : 0 <= eps -> Player.gt (Qabs (a - a)) eps = false.
Proof.
  intros Heps. unfold Player.gt. apply negb_false_iff, Qle_bool_iff.
  apply Qabs_Qle_condition. split; lra.
Qed.

Lemma hasPositionChanged_there pos eps p :
  0 <= eps ->
  Player.hasPositionChanged pos eps (Player.setPosition pos p) = false.
Proof.
  intros Heps. unfold Player.hasPositionChanged.
  cbn [Player.position Player.setPosition x y z].
  now rewrite !gt_self.
Qed.

Lemma hasRotationChanged_there rot eps p :
  0 <= eps ->
  Player.hasRotationChanged rot eps (Player.setRotation rot p) = false.
Proof.
  intros Heps. unfold Player.hasRotationChanged.
  cbn [Player.rotation Player.setRotation]. now apply gt_self.
Qed.

(** X19.  A move is idempotent: when the same payload arrives again, the
    position, rotation and animation it carries are the stored ones, so
    the second is dropped and changes nothing (whatever the first did,
    and whichever of the three fields the payload has). *)
Theorem move_is_idempotent
        (s : GameServer.t) (socketId : string) (data : MoveData) :
  step (fst (step s (Receive socketId (player_move data))))
       (Receive socketId (player_move data))
  = (fst (step s (Receive socketId (player_move data))), []).
Proof.
  cbn [step]. unfold GameServer.handlePlayerMove at 2 3.
  destruct (GameServer.getPlayer s socketId) as [[r p]|] eqn:Hp;
    [|cbn [fst]; unfold GameServer.handlePlayerMove; now rewrite Hp].
  cbv zeta.
  match goal with
  | |- context [if ?c then _ else _] => destruct c eqn:Hflags
  end.
  - cbn [fst]. unfold GameServer.handlePlayerMove. rewrite Hp.
    cbv zeta. now rewrite Hflags.
  - cbn [fst]. clear Hflags. unfold GameServer.handlePlayerMove.
    erewrite getPlayer_modify by exact Hp.
    assert (Hpos : 0 <= CONFIG.POSITION_THRESHOLD) by (vm_compute; discriminate).
    assert (Hrot : 0 <= CONFIG.ROTATION_THRESHOLD) by (vm_compute; discriminate).
    assert (Hquiet :
              forall q pos, Player.position q = Player.position
                                                  (Player.setPosition pos p) ->
                            Player.hasPositionChanged pos
                              CONFIG.POSITION_THRESHOLD q = false).
    { intros q pos Hq.
      rewrite <- (hasPositionChanged_there pos p Hpos).
      unfold Player.hasPositionChanged. now rewrite Hq. }
    assert (Hstill :
              forall q rot, Player.rotation q = rot ->
                            Player.hasRotationChanged rot
                              CONFIG.ROTATION_THRESHOLD q = false).
    { intros q rot <-.
      rewrite <- (hasRotationChanged_there (Player.rotation q) q Hrot).
      reflexivity. }
    destruct (m_position data) as [pos|], (m_rotation data) as [rot|],
      (m_animation data) as [a|]; cbn [option_map];
      try (destruct (truthy a) eqn:Ha);
      rewrite ?Hquiet by reflexivity; rewrite ?Hstill by reflexivity;
      cbn [Player.animation Player.setNeedsBroadcast Player.setAnimation
           Player.setRotation Player.setPosition];
      rewrite ?String.eqb_refl; cbn [negb andb]; reflexivity.
Qed.

(** * Selecting *)

(** X20.  Selecting a free character, and getting ready with it.  When a
    registered session of a reachable state asks for a valid character
    that nobody holds, the request succeeds: the room gives the character
    to the session, the player object records it, nobody becomes ready or
    stops being ready, the caller is sent [character:selected] and the
    rest of the room [character:stateChanged], both with the new
    snapshot.  A [player:ready] sent next is accepted and makes the
    session ready. *)
Theorem select_then_ready
        (s : GameServer.t) (socketId : string) (r : ref) (player : Player.t)
        (roomId c : string) (room : Room.t) :
  reachable s ->
  GameServer.getPlayer s socketId = Some (r, player) ->
  GameServer.getRoomId s socketId = Some roomId ->
  JSMap.get roomId (GameServer.rooms s) = Some room ->
  In c AVAILABLE_CHARACTERS ->
  JSMap.get c (Room.selectedCharacters room) = None ->
  exists room1,
    JSMap.get roomId
      (GameServer.rooms
         (fst (step s (Receive socketId (player_selectCharacter c)))))
    = Some room1 /\
    JSMap.get c (Room.selectedCharacters room1) = Some socketId /\
    Room.players room1 = Room.players room /\
    GameServer.getPlayer
      (fst (step s (Receive socketId (player_selectCharacter c)))) socketId
    = Some (r, Player.setCharacter c player) /\
    snd (step s (Receive socketId (player_selectCharacter c)))
    = [Emit (Socket socketId)
         (character_selected c (Room.getCharacterStates room1));
       Emit (Except socketId roomId)
         (character_stateChanged (Room.getCharacterStates room1))] /\
    exists room2,
      JSMap.get roomId
        (GameServer.rooms
           (fst (run s [Receive socketId (player_selectCharacter c);
                        Receive socketId player_ready])))
      = Some room2 /\
      In socketId (readyIds room2) /\
      JSMap.get c (Room.selectedCharacters room2) = Some socketId.
Proof.
  intros Hs Hp Hrid Hroom Hc Hfree. pose proof (reachable_Inv Hs) as HI.
  destruct (getPlayer_deref _ _ Hp) as [Hr Hd].
  destruct (inv_ids HI _ Hr) as (p0 & Hd0 & Hid).
  assert (p0 = player) by congruence. subst p0.
  assert (Hsel : exists room1,
             Room.selectCharacter socketId c room = (room1, Room.Success)).
  { unfold Room.selectCharacter.
    apply includes_In in Hc. rewrite Hc. cbn [negb].
    unfold JSMap.has. rewrite Hfree. eauto. }
  destruct Hsel as [room1 Hsel]. exists room1.
  assert (Hstep : step s (Receive socketId (player_selectCharacter c))
                  = (GameServer.setHeap
                       (modify r (Player.setCharacter c) (GameServer.heap s))
                       (GameServer.setRooms
                          (JSMap.set roomId room1 (GameServer.rooms s)) s),
                     [Emit (Socket socketId)
                        (character_selected c (Room.getCharacterStates room1));
                      Emit (Except socketId roomId)
                        (character_stateChanged
                           (Room.getCharacterStates room1))])).
  { cbn [step]. unfold GameServer.handleCharacterSelect.
    now rewrite Hp, Hrid, Hroom, Hsel. }
  assert (Hp1 : GameServer.getPlayer
                  (fst (step s (Receive socketId (player_selectCharacter c))))
                  socketId
                = Some (r, Player.setCharacter c player)).
  { rewrite Hstep. unfold GameServer.getPlayer.
    cbn [fst GameServer.players GameServer.heap GameServer.setHeap
         GameServer.setRooms].
    now rewrite Hr, (@deref_modify_eq _ r _ player Hd). }
  split; [rewrite Hstep; apply get_set_eq|].
  split; [eapply select_get, Hsel|].
  split; [apply (@select_players socketId c room room1 Hsel)|].
  split; [exact Hp1|]. split; [now rewrite Hstep|].
  cbn [run]. rewrite Hstep in *. cbn [fst] in Hp1.
  cbn [step]. unfold GameServer.handlePlayerReady.
  rewrite Hp1.
  change (GameServer.getRoomId
            (GameServer.setHeap
               (modify r (Player.setCharacter c) (GameServer.heap s))
               (GameServer.setRooms
                  (JSMap.set roomId room1 (GameServer.rooms s)) s))
            socketId)
    with (GameServer.getRoomId s socketId).
  rewrite Hrid.
  cbn [GameServer.rooms GameServer.setHeap GameServer.setRooms].
  rewrite get_set_eq.
  cbn [Player.characterId Player.setCharacter truthy_opt].
  rewrite (@AVAILABLE_truthy c Hc). cbn [negb fst].
  eexists. split; [apply get_set_eq|]. split.
  - unfold readyIds, Room.addPlayer.
    cbn [Room.players Room.setPlayers Player.id Player.setCharacter].
    apply In_keys_set. left. symmetry. exact Hid.
  - cbn [Room.selectedCharacters Room.addPlayer Room.setPlayers].
    eapply select_get, Hsel.
Qed.

Lemma select_then_ready_witness :
  exists room1,
    JSMap.get "hawkins-1"
      (GameServer.rooms
         (fst (step bothReady (Receive "A" (player_selectCharacter "max")))))
    = Some room1 /\
    JSMap.get "max" (Room.selectedCharacters room1) = Some "A".
Proof.
  destruct (GameServer.getPlayer bothReady "A") as [[r p]|] eqn:E;
    [|vm_compute in E; discriminate E].
  assert (Hc : In "max" AVAILABLE_CHARACTERS) by (vm_compute; tauto).
  destruct (@select_then_ready bothReady "A" r p "hawkins-1" "max" readyRoom
              reachable_bothReady E eq_refl eq_refl Hc eq_refl)
    as (room1 & H1 & H2 & _).
  exists room1. auto.
Defined.
